(** * wallet-standard-svelte: connection controllers, wallet stores and the
      identity cache of [src/lib/wallets.svelte.ts]

    The development embeds the classes of [wallets.svelte.ts] as state
    transformers.  JavaScript objects that are compared by reference
    (wallets, arrays, UI handles, promises) carry an explicit identity, and
    asynchronous methods are split at their [await]: one function for the
    synchronous part of a call, one for what runs when the awaited promise
    settles. *)

From stdpp Require Import base option gmap strings list.

(** ** Values exchanged with the wallets *)

(** Feature names imported from [@wallet-standard/features]. *)
Definition StandardConnect : string := "standard:connect".
Definition StandardDisconnect : string := "standard:disconnect".
Definition StandardEvents : string := "standard:events".

(** A thrown or rejected value; the code only stores and compares it. *)
Record Error := { message : string }.

(** A [WalletAccount]; [account_id] is the identity of the object. *)
Record WalletAccount := { account_id : nat; address : string }.

(** A [Wallet] of [@wallet-standard/base].  [wallet_id] is the identity of
    the JavaScript object: [WeakMap] keys and [===] compare it, while
    [Array.prototype.find] in [UiWalletConnect] compares [wallet_name]. *)
Record Wallet := {
  wallet_id : nat;
  wallet_name : string;
  wallet_features : gset string
}.

#[global] Instance Error_eq_dec : EqDecision Error.
Proof. solve_decision. Defined.
#[global] Instance WalletAccount_eq_dec : EqDecision WalletAccount.
Proof. solve_decision. Defined.
#[global] Instance Wallet_eq_dec : EqDecision Wallet.
Proof. solve_decision. Defined.

(** [name in wallet.features] *)
Definition has_feature (f : string) (w : Wallet) : bool :=
  bool_decide (f ∈ wallet_features w).

(** How a promise settles. *)
Inductive Settled (A : Type) : Type :=
  | Fulfilled (value : A)
  | RejectedWith (reason : Error).
Arguments Fulfilled {A} value.
Arguments RejectedWith {A} reason.

(** [StandardConnectOutput] *)
Record StandardConnectOutput := { accounts : list WalletAccount }.

(** [result.accounts[0] || null]: accounts are objects, hence truthy. *)
Definition first_account (result : StandardConnectOutput) : option WalletAccount :=
  head (accounts result).

(** ** [class WalletConnection] *)

Record WalletConnection := {
  wallet : option Wallet;
  account : option WalletAccount;
  connecting : bool;
  connected : bool;
  error : option Error
}.

(** Field initialisers of the class. *)
Definition new_WalletConnection : WalletConnection :=
  {| wallet := None; account := None; connecting := false;
     connected := false; error := None |}.

Definition set_connecting (b : bool) (x : WalletConnection) : WalletConnection :=
  {| wallet := wallet x; account := account x; connecting := b;
     connected := connected x; error := error x |}.

Definition set_error (e : option Error) (x : WalletConnection) : WalletConnection :=
  {| wallet := wallet x; account := account x; connecting := connecting x;
     connected := connected x; error := e |}.

(** [$state] fields.  When a plain object or array is assigned to a [$state]
    field, Svelte keeps a reactive proxy of it: another reference, through
    which the properties of the assigned object read unchanged.  Two values
    are the same wallet, or the same account, to a reader of such a field when
    their properties agree. *)
Definition same_wallet (a b : Wallet) : Prop :=
  wallet_name a = wallet_name b ∧ wallet_features a = wallet_features b.

Definition same_account (a b : WalletAccount) : Prop := address a = address b.

(** What a [$state] field shows after a wallet, or an account or [null], was
    assigned to it. *)
Definition shows_wallet (field : option Wallet) (w : Wallet) : Prop :=
  ∃ w', field = Some w' ∧ same_wallet w' w.

Definition shows_account (field : option WalletAccount)
    (assigned : option WalletAccount) : Prop :=
  match assigned with
  | Some a => ∃ a', field = Some a' ∧ same_account a' a
  | None => field = None
  end.

(** [this.wallet = wallet; this.account = result.accounts[0] || null;
    this.connected = true].  [wallet] and [account] are [$state] fields; the
    record keeps the objects that were assigned, and what the fields show of
    them is stated with [same_wallet] and [same_account], never by the
    reference. *)
Definition set_connected (w : Wallet) (result : StandardConnectOutput)
    (x : WalletConnection) : WalletConnection :=
  {| wallet := Some w; account := first_account result;
     connecting := connecting x; connected := true; error := error x |}.

(** [this.wallet = null; this.account = null; this.connected = false;
    this.error = null] *)
Definition clear_connection (x : WalletConnection) : WalletConnection :=
  {| wallet := None; account := None; connecting := connecting x;
     connected := false; error := None |}.

(** ** The event loop seen by the controllers

    A pending [connectionPromise] remembers the wallet it is registered under
    in [connectionPromises], the controller whose [connect] created it (its
    [then] callback writes that controller), and the controllers that found
    it in the table and await it, in arrival order, each with the [wallet]
    argument of its own call. *)
Record ConnectOperation := {
  op_wallet : Wallet;
  op_owner : nat;
  op_adopters : list (nat * Wallet)
}.

Record World := {
  (** the [WalletConnection] instances, by identity; an identity that was
      never written is an instance fresh from its constructor *)
  connections : gmap nat WalletConnection;
  (** [const connectionPromises = new WeakMap<Wallet, Promise<any>>()],
      keyed by wallet identity *)
  connectionPromises : gmap nat nat;
  (** pending promises created by [connect] *)
  connect_pending : gmap nat ConnectOperation;
  (** pending [disconnectFeature.disconnect()] promises and the controller
      awaiting each *)
  disconnect_pending : gmap nat nat;
  next_promise : nat;
  (** calls of [connectFeature.connect()], by wallet identity, oldest first *)
  connect_invocations : list nat;
  (** calls of [disconnectFeature.disconnect()], oldest first *)
  disconnect_invocations : list nat;
  (** promises returned by [connect] and [disconnect] that have settled:
      controller and outcome, oldest first *)
  completed : list (nat * Settled unit)
}.

Definition empty_world : World :=
  {| connections := ∅; connectionPromises := ∅; connect_pending := ∅;
     disconnect_pending := ∅; next_promise := 0; connect_invocations := [];
     disconnect_invocations := []; completed := [] |}.

Definition connection (s : World) (c : nat) : WalletConnection :=
  default new_WalletConnection (connections s !! c).

Definition update_connection (c : nat) (f : WalletConnection → WalletConnection)
    (s : World) : World :=
  {| connections := <[c := f (connection s c)]> (connections s);
     connectionPromises := connectionPromises s;
     connect_pending := connect_pending s;
     disconnect_pending := disconnect_pending s;
     next_promise := next_promise s;
     connect_invocations := connect_invocations s;
     disconnect_invocations := disconnect_invocations s;
     completed := completed s |}.

(** The promise of an [async] method call settles. *)
Definition complete (c : nat) (r : Settled unit) (s : World) : World :=
  {| connections := connections s;
     connectionPromises := connectionPromises s;
     connect_pending := connect_pending s;
     disconnect_pending := disconnect_pending s;
     next_promise := next_promise s;
     connect_invocations := connect_invocations s;
     disconnect_invocations := disconnect_invocations s;
     completed := completed s ++ [(c, r)] |}.

(** [connectFeature.connect().then(..).finally(..)] followed by
    [connectionPromises.set(wallet, connectionPromise)]. *)
Definition start_connect (c : nat) (w : Wallet) (s : World) : World :=
  {| connections := connections s;
     connectionPromises := <[wallet_id w := next_promise s]> (connectionPromises s);
     connect_pending :=
       <[next_promise s := {| op_wallet := w; op_owner := c; op_adopters := [] |}]>
         (connect_pending s);
     disconnect_pending := disconnect_pending s;
     next_promise := S (next_promise s);
     connect_invocations := connect_invocations s ++ [wallet_id w];
     disconnect_invocations := disconnect_invocations s;
     completed := completed s |}.

(** [await existingPromise] *)
Definition add_adopter (c : nat) (w : Wallet) (o : ConnectOperation) : ConnectOperation :=
  {| op_wallet := op_wallet o; op_owner := op_owner o;
     op_adopters := op_adopters o ++ [(c, w)] |}.

Definition await_existing (p c : nat) (w : Wallet) (s : World) : World :=
  {| connections := connections s;
     connectionPromises := connectionPromises s;
     connect_pending := alter (add_adopter c w) p (connect_pending s);
     disconnect_pending := disconnect_pending s;
     next_promise := next_promise s;
     connect_invocations := connect_invocations s;
     disconnect_invocations := disconnect_invocations s;
     completed := completed s |}.

(** [WalletConnection.connect(wallet)] up to its first [await], or to its
    end when it does not wait. *)
Definition WalletConnection_connect (c : nat) (w : Wallet) (s : World) : World :=
  if connecting (connection s c) then complete c (Fulfilled ()) s
  else
    let s := update_connection c (λ x, set_error None (set_connecting true x)) s in
    match connectionPromises s !! wallet_id w with
    | Some p => await_existing p c w s
    | None =>
        if has_feature StandardConnect w then start_connect c w s
        else complete c (Fulfilled ()) (update_connection c (set_connecting false) s)
    end.

(** The rest of [connect] for the controller that created the promise:
    [catch (error) { this.error = error }], then
    [finally { this.connecting = false }]. *)
Definition resume_owner {A} (o : Settled A) (x : WalletConnection) : WalletConnection :=
  set_connecting false
    match o with
    | Fulfilled _ => x
    | RejectedWith e => set_error (Some e) x
    end.

(** The rest of [connect] after [await existingPromise]. *)
Definition resume_adopter (w : Wallet) (o : Settled StandardConnectOutput)
    (x : WalletConnection) : WalletConnection :=
  set_connecting false
    match o with
    | Fulfilled result => set_connected w result x
    | RejectedWith e => set_error (Some e) x
    end.

Definition resume_adopters (o : Settled StandardConnectOutput)
    (l : list (nat * Wallet)) (s : World) : World :=
  foldl (λ s cw, complete cw.1 (Fulfilled ())
                   (update_connection cw.1 (resume_adopter cw.2 o) s)) s l.

(** [.finally(() => { connectionPromises.delete(wallet) })]; the promise is no
    longer pending. *)
Definition forget_connect (p : nat) (w : Wallet) (s : World) : World :=
  {| connections := connections s;
     connectionPromises := delete (wallet_id w) (connectionPromises s);
     connect_pending := delete p (connect_pending s);
     disconnect_pending := disconnect_pending s;
     next_promise := next_promise s;
     connect_invocations := connect_invocations s;
     disconnect_invocations := disconnect_invocations s;
     completed := completed s |}.

(** The promise returned by the wallet's [connect] settles with [o].  The
    jobs this queues run before any other task: the [then] callback (only
    when fulfilled), the [finally] callback, then the continuations of the
    awaiting [connect] calls in the order in which they started to wait. *)
Definition settle_connect (p : nat) (o : Settled StandardConnectOutput)
    (s : World) : World :=
  match connect_pending s !! p with
  | None => s
  | Some op =>
      let s :=
        match o with
        | Fulfilled result =>
            update_connection (op_owner op) (set_connected (op_wallet op) result) s
        | RejectedWith _ => s
        end in
      let s := forget_connect p (op_wallet op) s in
      let s := complete (op_owner op) (Fulfilled ())
                 (update_connection (op_owner op) (resume_owner o) s) in
      resume_adopters o (op_adopters op) s
  end.

(** [await disconnectFeature.disconnect()] *)
Definition start_disconnect (c : nat) (w : Wallet) (s : World) : World :=
  {| connections := connections s;
     connectionPromises := connectionPromises s;
     connect_pending := connect_pending s;
     disconnect_pending := <[next_promise s := c]> (disconnect_pending s);
     next_promise := S (next_promise s);
     connect_invocations := connect_invocations s;
     disconnect_invocations := disconnect_invocations s ++ [wallet_id w];
     completed := completed s |}.

(** [WalletConnection.disconnect()] up to its [await], or to its end when the
    wallet has no [standard:disconnect] feature. *)
Definition WalletConnection_disconnect (c : nat) (s : World) : World :=
  match wallet (connection s c) with
  | None => complete c (Fulfilled ()) s
  | Some w =>
      if has_feature StandardDisconnect w then start_disconnect c w s
      else complete c (Fulfilled ()) (update_connection c clear_connection s)
  end.

Definition forget_disconnect (d : nat) (s : World) : World :=
  {| connections := connections s;
     connectionPromises := connectionPromises s;
     connect_pending := connect_pending s;
     disconnect_pending := delete d (disconnect_pending s);
     next_promise := next_promise s;
     connect_invocations := connect_invocations s;
     disconnect_invocations := disconnect_invocations s;
     completed := completed s |}.

(** The rest of [disconnect] once the awaited promise has settled: the
    statements after the [await] when it fulfilled, the [catch] block when it
    rejected. *)
Definition resume_disconnect (o : Settled unit) (x : WalletConnection) : WalletConnection :=
  match o with
  | Fulfilled _ => clear_connection x
  | RejectedWith e => set_error (Some e) x
  end.

Definition settle_disconnect (d : nat) (o : Settled unit) (s : World) : World :=
  match disconnect_pending s !! d with
  | None => s
  | Some c =>
      complete c (Fulfilled ())
        (update_connection c (resume_disconnect o) (forget_disconnect d s))
  end.

(** Everything that can happen to the controllers. *)
Inductive Action :=
  | Connect (c : nat) (w : Wallet)
  | Disconnect (c : nat)
  | SettleConnect (p : nat) (o : Settled StandardConnectOutput)
  | SettleDisconnect (d : nat) (o : Settled unit).

Definition step (a : Action) (s : World) : World :=
  match a with
  | Connect c w => WalletConnection_connect c w s
  | Disconnect c => WalletConnection_disconnect c s
  | SettleConnect p o => settle_connect p o s
  | SettleDisconnect d o => settle_disconnect d o s
  end.

Definition run (l : list Action) (s : World) : World :=
  foldl (λ s a, step a s) s l.

(** The states of the specification's connection state machine. *)
Definition is_idle (x : WalletConnection) : Prop :=
  wallet x = None ∧ account x = None ∧ connecting x = false
  ∧ connected x = false ∧ error x = None.

(** ** [class WalletsStore]

    Arrays are compared by reference by the observers of [$state], so an
    array carries the identity it was allocated with. *)
Record WalletArray := { array_id : nat; items : list Wallet }.

(** The two events of the registry returned by [getWallets()]. *)
Inductive RegistryEvent := register | unregister.

#[global] Instance RegistryEvent_eq_dec : EqDecision RegistryEvent.
Proof. solve_decision. Defined.

Record WalletsStore := {
  wallets : WalletArray;
  (** registry events whose listener is installed and not disposed *)
  disposers : list RegistryEvent;
  (** wallets whose [change] listener is installed and not disposed *)
  eventDisposers : list Wallet
}.

(** The registry ([get] returns [registry]), one store listening to it, and
    the allocator of array identities. *)
Record StoreWorld := {
  registry : WalletArray;
  store : WalletsStore;
  next_array : nat
}.

(** [private setupEventListeners()] *)
Definition setupEventListeners (st : WalletsStore) : WalletsStore :=
  {| wallets := wallets st;
     disposers := disposers st;
     eventDisposers :=
       filter (λ w, has_feature StandardEvents w = true) (items (wallets st)) |}.

(** [wallets] is a [$state] field: [this.wallets = get()] keeps a reactive
    proxy of the array, a reference [k] of its own through which the
    elements read in order.  An element that is a plain object reads as a
    proxy of it, so what the field shows of the registry's wallets is stated
    with [same_wallet]. *)
Definition state_array (k : nat) (a : WalletArray) : WalletArray :=
  {| array_id := k; items := items a |}.

(** [constructor()]; [k] is the reference of the proxy that the assignment
    to [this.wallets] makes. *)
Definition new_WalletsStore (k : nat) (get : WalletArray) : WalletsStore :=
  setupEventListeners
    {| wallets := state_array k get; disposers := [register; unregister];
       eventDisposers := [] |}.

(** [destroy()] *)
Definition destroy (st : WalletsStore) : WalletsStore :=
  {| wallets := wallets st; disposers := []; eventDisposers := [] |}.

(** The listener given to [on('register', ..)] and [on('unregister', ..)]:
    [this.wallets = get(); this.setupEventListeners()]; [k] is the reference
    of the proxy that the assignment makes. *)
Definition on_registry_event (k : nat) (get : WalletArray) (st : WalletsStore)
    : WalletsStore :=
  setupEventListeners
    {| wallets := state_array k get; disposers := disposers st;
       eventDisposers := eventDisposers st |}.

(** The listeners of one registry event run in turn, each assignment making
    a proxy of its own. *)
Definition run_registry_listeners {A} (get : WalletArray) (listeners : list A)
    (st : WalletsStore) (k : nat) : WalletsStore * nat :=
  foldl (λ sk _, (on_registry_event sk.2 get sk.1, S sk.2)) (st, k) listeners.

(** The listener given to [eventsFeature.on('change', ..)]:
    [this.wallets = [...this.wallets]].  The copy is reachable only through
    the proxy the field keeps of it, so one new reference stands for both. *)
Definition on_change (s : StoreWorld) : StoreWorld :=
  {| registry := registry s;
     store := {| wallets := {| array_id := next_array s;
                               items := items (wallets (store s)) |};
                 disposers := disposers (store s);
                 eventDisposers := eventDisposers (store s) |};
     next_array := S (next_array s) |}.

(** A program that holds the registry and then constructs the store. *)
Definition new_StoreWorld (initial : list Wallet) : StoreWorld :=
  {| registry := {| array_id := 0; items := initial |};
     store := new_WalletsStore 1 {| array_id := 0; items := initial |};
     next_array := 2 |}.

(** What the store can observe: the registry changes its membership to [now]
    (a new array) and emits [ev], or wallet [w] emits [change]. *)
Inductive StoreEvent :=
  | RegistryEmits (ev : RegistryEvent) (now : list Wallet)
  | WalletEmitsChange (w : Wallet).

Definition store_step (e : StoreEvent) (s : StoreWorld) : StoreWorld :=
  match e with
  | RegistryEmits ev now =>
      let get := {| array_id := next_array s; items := now |} in
      let ran :=
        run_registry_listeners get (filter (λ d, d = ev) (disposers (store s)))
          (store s) (S (next_array s)) in
      {| registry := get; store := ran.1; next_array := ran.2 |}
  | WalletEmitsChange w =>
      foldl (λ s _, on_change s) s
        (filter (λ v, wallet_id v = wallet_id w) (eventDisposers (store s)))
  end.

Definition store_run (l : list StoreEvent) (s : StoreWorld) : StoreWorld :=
  foldl (λ s e, store_step e s) s l.

(** ** The identity cache of [@wallet-standard/ui-registry] *)

(** A [UiWallet] handle; [ui_id] is the identity of the object. *)
Record UiWallet := {
  ui_id : nat;
  ui_name : string;
  ui_features : list string
}.

Record UiWalletAccount := {
  ui_account_id : nat;
  ui_address : string
}.

#[global] Instance UiWallet_eq_dec : EqDecision UiWallet.
Proof. solve_decision. Defined.

Record UiRegistry := {
  (** wallet identity to its handle *)
  ui_cache : gmap nat UiWallet;
  (** handle identity to the wallet it was derived from *)
  handle_wallets : gmap nat Wallet;
  (** (wallet identity, account identity) to the account's handle *)
  ui_account_cache : gmap (nat * nat) UiWalletAccount;
  next_handle : nat
}.

Definition empty_registry : UiRegistry :=
  {| ui_cache := ∅; handle_wallets := ∅; ui_account_cache := ∅; next_handle := 0 |}.

(** Modelled from the spec: [getOrCreateUiWalletForStandardWallet] is imported
    from [@wallet-standard/ui-registry].  It "returns an existing cached
    Public Handle if one exists for the exact given Provider Handle
    reference, else constructs, caches, and returns a new one"; the handle
    lists the names of the wallet's capabilities. *)
Definition getOrCreateUiWalletForStandardWallet (w : Wallet) (r : UiRegistry)
    : UiWallet * UiRegistry :=
  match ui_cache r !! wallet_id w with
  | Some u => (u, r)
  | None =>
      let u := {| ui_id := next_handle r; ui_name := wallet_name w;
                  ui_features := elements (wallet_features w) |} in
      (u, {| ui_cache := <[wallet_id w := u]> (ui_cache r);
             handle_wallets := <[next_handle r := w]> (handle_wallets r);
             ui_account_cache := ui_account_cache r;
             next_handle := S (next_handle r) |})
  end.

(** Modelled from the spec: [getOrCreateUiWalletAccountForStandardWalletAccount]
    of [@wallet-standard/ui-registry], with "the same identity-stability
    contract per native account", per owning wallet. *)
Definition getOrCreateUiWalletAccountForStandardWalletAccount (w : Wallet)
    (a : WalletAccount) (r : UiRegistry) : UiWalletAccount * UiRegistry :=
  match ui_account_cache r !! (wallet_id w, account_id a) with
  | Some u => (u, r)
  | None =>
      let u := {| ui_account_id := next_handle r; ui_address := address a |} in
      (u, {| ui_cache := ui_cache r;
             handle_wallets := handle_wallets r;
             ui_account_cache := <[(wallet_id w, account_id a) := u]> (ui_account_cache r);
             next_handle := S (next_handle r) |})
  end.

(** Modelled from the spec: [getWalletForHandle] of
    [@wallet-standard/ui-registry]; [None] when "the underlying provider
    handle cannot be resolved from the public handle". *)
Definition getWalletForHandle (u : UiWallet) (r : UiRegistry) : option Wallet :=
  handle_wallets r !! ui_id u.

(** Modelled from the spec: the error the specification calls
    [CapabilityNotFound], thrown by [@wallet-standard/ui-features]. *)
Definition CapabilityNotFound : Error := {| message := "CapabilityNotFound" |}.

(** Modelled from the spec: [getWalletFeature] of
    [@wallet-standard/ui-features], which [getWalletFeature.ts] wraps.  It
    "fails with [CapabilityNotFound] if [name] is not present in the handle's
    declared capability list, or if the underlying provider handle cannot be
    resolved from the public handle"; otherwise the feature object of that
    wallet is returned, named here by the wallet. *)
Definition getWalletFeature (u : UiWallet) (featureName : string) (r : UiRegistry)
    : Error + Wallet :=
  if bool_decide (featureName ∈ ui_features u) then
    match getWalletForHandle u r with
    | Some w => inr w
    | None => inl CapabilityNotFound
    end
  else inl CapabilityNotFound.

(** [array.map(f)] for an [f] that reads and fills the cache. *)
Fixpoint map_cached {A B} (f : A → UiRegistry → B * UiRegistry) (l : list A)
    (r : UiRegistry) : list B * UiRegistry :=
  match l with
  | [] => ([], r)
  | x :: l =>
      let '(y, r) := f x r in
      let '(ys, r) := map_cached f l r in
      (y :: ys, r)
  end.

(** [useWallets()]:
    [rawWallets.map(getOrCreateUiWalletForStandardWallet)] on [get()]. *)
Definition useWallets (get : list Wallet) (r : UiRegistry) : list UiWallet * UiRegistry :=
  map_cached getOrCreateUiWalletForStandardWallet get r.

(** ** [class UiWalletsStore] *)

(** A reactive proxy kept by a [$state] field: a reference of its own,
    [proxy_id], to the object [proxy_target], whose properties read through
    it. *)
Record StateProxy (A : Type) := { proxy_id : nat; proxy_target : A }.
Arguments proxy_id {A} _.
Arguments proxy_target {A} _.

(** The proxies through which the elements of an array assigned to a
    [$state] field read, numbered from [k]; handles are plain objects. *)
Fixpoint state_proxies {A} (k : nat) (l : list A) : list (StateProxy A) :=
  match l with
  | [] => []
  | x :: l => {| proxy_id := k; proxy_target := x |} :: state_proxies (S k) l
  end.

(** [wallets] is a [$state] field: it shows proxies of the handles. *)
Record UiWalletsStore := {
  ui_wallets : list (StateProxy UiWallet);
  ui_disposers : list RegistryEvent
}.

(** [private loadWallets()]; the proxies that the assignment to
    [this.wallets] makes are numbered from [k]. *)
Definition loadWallets (get : list Wallet) (k : nat) (st : UiWalletsStore)
    (r : UiRegistry) : UiWalletsStore * UiRegistry :=
  let '(us, r) := map_cached getOrCreateUiWalletForStandardWallet get r in
  ({| ui_wallets := state_proxies k us; ui_disposers := ui_disposers st |}, r).

(** [destroy()] of [UiWalletsStore] *)
Definition UiWalletsStore_destroy (st : UiWalletsStore) : UiWalletsStore :=
  {| ui_wallets := ui_wallets st; ui_disposers := [] |}.

(** [constructor()]: [loadWallets()] then [setupWalletListeners()]. *)
Definition new_UiWalletsStore (get : list Wallet) (k : nat) (r : UiRegistry)
    : UiWalletsStore * UiRegistry :=
  let '(st, r) := loadWallets get k {| ui_wallets := []; ui_disposers := [] |} r in
  ({| ui_wallets := ui_wallets st;
      ui_disposers := ui_disposers st ++ [register; unregister] |}, r).

(** ** The per-wallet helpers: [UiWalletConnect], [UiWalletDisconnect],
    [WalletConnect], [WalletDisconnect]

    What a call of one of their [async] methods hands back before anything
    is awaited. *)
Inductive Returned (A : Type) : Type :=
  (** [return this.connectionPromise]: the promise already in flight *)
  | Existing (p : nat)
  (** a [throw] in the body: the returned promise rejects with [e] *)
  | Throws (e : Error)
  (** the capability of [w] was invoked; the new promise [p] is returned *)
  | Awaits (p : nat) (w : Wallet)
  (** a plain [return v] *)
  | Returns (v : A).
Arguments Existing {A} p.
Arguments Throws {A} e.
Arguments Awaits {A} p w.
Arguments Returns {A} v.

Definition dquote : string := String (Ascii.ascii_of_nat 34) EmptyString.

(** [new Error(`Wallet "${this.uiWallet.name}" not found in global registry`)] *)
Definition not_found_error (name : string) : Error :=
  {| message := "Wallet " +:+ dquote +:+ name +:+ dquote
                +:+ " not found in global registry" |}.

(** [globalWallets.find(w => w.name === this.uiWallet.name)] *)
Definition find_by_name (name : string) (globalWallets : list Wallet) : option Wallet :=
  List.find (λ w, bool_decide (wallet_name w = name)) globalWallets.

Record UiWalletConnect := {
  uc_connecting : bool;
  uc_error : option Error;
  uc_connectionPromise : option nat;
  uc_uiWallet : UiWallet
}.

Definition new_UiWalletConnect (uiWallet : UiWallet) : UiWalletConnect :=
  {| uc_connecting := false; uc_error := None; uc_connectionPromise := None;
     uc_uiWallet := uiWallet |}.

(** [UiWalletConnect.connect(input)]; [get] is the registry's snapshot and
    [p] the identity of the promise the call creates, if it creates one. *)
Definition UiWalletConnect_connect (get : list Wallet) (p : nat)
    (this : UiWalletConnect) (r : UiRegistry)
    : Returned (list UiWalletAccount) * UiWalletConnect * UiRegistry :=
  match uc_connectionPromise this with
  | Some q => (Existing q, this, r)
  | None =>
      match find_by_name (ui_name (uc_uiWallet this)) get with
      | None =>
          let e := not_found_error (ui_name (uc_uiWallet this)) in
          (Throws e,
           {| uc_connecting := false; uc_error := Some e;
              uc_connectionPromise := None; uc_uiWallet := uc_uiWallet this |},
           r)
      | Some matchingWallet =>
          let '(freshUiWallet, r) :=
            getOrCreateUiWalletForStandardWallet matchingWallet r in
          let started :=
            {| uc_connecting := true; uc_error := None;
               uc_connectionPromise := None; uc_uiWallet := uc_uiWallet this |} in
          match getWalletForHandle freshUiWallet r,
                getWalletFeature freshUiWallet StandardConnect r with
          | Some w, inr _ =>
              (Awaits p w,
               {| uc_connecting := true; uc_error := None;
                  uc_connectionPromise := Some p; uc_uiWallet := uc_uiWallet this |},
               r)
          | None, _ => (Throws CapabilityNotFound, started, r)
          | _, inl e => (Throws e, started, r)
          end
      end
  end.

(** The promise of the wallet's [connect] settles: the [then] callback maps
    the accounts through the cache, the [catch] callback records and rethrows,
    the [finally] callback resets the controller.  The first component is how
    [this.connectionPromise], which the caller holds, settles. *)
Definition UiWalletConnect_settle (w : Wallet) (o : Settled StandardConnectOutput)
    (this : UiWalletConnect) (r : UiRegistry)
    : Settled (list UiWalletAccount) * UiWalletConnect * UiRegistry :=
  match o with
  | Fulfilled result =>
      let '(us, r) :=
        map_cached (getOrCreateUiWalletAccountForStandardWalletAccount w)
          (accounts result) r in
      (Fulfilled us,
       {| uc_connecting := false; uc_error := uc_error this;
          uc_connectionPromise := None; uc_uiWallet := uc_uiWallet this |},
       r)
  | RejectedWith e =>
      (RejectedWith e,
       {| uc_connecting := false; uc_error := Some e;
          uc_connectionPromise := None; uc_uiWallet := uc_uiWallet this |},
       r)
  end.

Record UiWalletDisconnect := {
  ud_disconnecting : bool;
  ud_error : option Error;
  ud_disconnectionPromise : option nat;
  ud_uiWallet : UiWallet
}.

(** [UiWalletDisconnect.disconnect()] *)
Definition UiWalletDisconnect_disconnect (get : list Wallet) (p : nat)
    (this : UiWalletDisconnect) (r : UiRegistry)
    : Returned unit * UiWalletDisconnect * UiRegistry :=
  match ud_disconnectionPromise this with
  | Some q => (Existing q, this, r)
  | None =>
      let started :=
        {| ud_disconnecting := true; ud_error := None;
           ud_disconnectionPromise := None; ud_uiWallet := ud_uiWallet this |} in
      match find_by_name (ui_name (ud_uiWallet this)) get with
      | None => (Throws (not_found_error (ui_name (ud_uiWallet this))), started, r)
      | Some matchingWallet =>
          let '(freshUiWallet, r) :=
            getOrCreateUiWalletForStandardWallet matchingWallet r in
          match getWalletFeature freshUiWallet StandardDisconnect r with
          | inr w =>
              (Awaits p w,
               {| ud_disconnecting := true; ud_error := None;
                  ud_disconnectionPromise := Some p;
                  ud_uiWallet := ud_uiWallet this |},
               r)
          | inl e => (Throws e, started, r)
          end
      end
  end.

(** [.catch(..).finally(..)] on the wallet's [disconnect] promise. *)
Definition UiWalletDisconnect_settle (o : Settled unit) (this : UiWalletDisconnect)
    : Settled unit * UiWalletDisconnect :=
  match o with
  | Fulfilled v =>
      (Fulfilled v,
       {| ud_disconnecting := false; ud_error := ud_error this;
          ud_disconnectionPromise := None; ud_uiWallet := ud_uiWallet this |})
  | RejectedWith e =>
      (RejectedWith e,
       {| ud_disconnecting := false; ud_error := Some e;
          ud_disconnectionPromise := None; ud_uiWallet := ud_uiWallet this |})
  end.

(** The legacy classes for raw wallets. *)
Record WalletConnect := {
  wc_connecting : bool;
  wc_error : option Error;
  wc_connectionPromise : option nat;
  wc_wallet : Wallet
}.


(** [.then(result => result.accounts).catch(..).finally(..)] *)
Definition WalletConnect_settle (o : Settled StandardConnectOutput) (this : WalletConnect)
    : Settled (list WalletAccount) * WalletConnect :=
  match o with
  | Fulfilled result =>
      (Fulfilled (accounts result),
       {| wc_connecting := false; wc_error := wc_error this;
          wc_connectionPromise := None; wc_wallet := wc_wallet this |})
  | RejectedWith e =>
      (RejectedWith e,
       {| wc_connecting := false; wc_error := Some e;
          wc_connectionPromise := None; wc_wallet := wc_wallet this |})
  end.

Record WalletDisconnect := {
  wd_disconnecting : bool;
  wd_error : option Error;
  wd_disconnectionPromise : option nat;
  wd_wallet : Wallet
}.


(** [.catch(..).finally(..)] *)
Definition WalletDisconnect_settle (o : Settled unit) (this : WalletDisconnect)
    : Settled unit * WalletDisconnect :=
  match o with
  | Fulfilled v =>
      (Fulfilled v,
       {| wd_disconnecting := false; wd_error := wd_error this;
          wd_disconnectionPromise := None; wd_wallet := wd_wallet this |})
  | RejectedWith e =>
      (RejectedWith e,
       {| wd_disconnecting := false; wd_error := Some e;
          wd_disconnectionPromise := None; wd_wallet := wd_wallet this |})
  end.

(** ** Sample values *)

Definition acme : Wallet :=
  {| wallet_id := 1; wallet_name := "Acme";
     wallet_features := {[ StandardConnect; StandardDisconnect; StandardEvents ]} |}.

Definition basic : Wallet :=
  {| wallet_id := 2; wallet_name := "Basic Wallet"; wallet_features := ∅ |}.

Definition connect_only : Wallet :=
  {| wallet_id := 3; wallet_name := "Connect Only Wallet";
     wallet_features := {[ StandardConnect ]} |}.

Definition acme_account : WalletAccount := {| account_id := 7; address := "0xAB" |}.

Definition acme_output : StandardConnectOutput := {| accounts := [acme_account] |}.

Definition boom : Error := {| message := "Disconnect failed" |}.

(** ** Predicates used to state the properties *)

(** [connected] tells whether a wallet is held, and an account is held only
    together with a wallet. *)
Definition consistent (x : WalletConnection) : Prop :=
  (connected x = true ↔ wallet x ≠ None) ∧ (account x ≠ None → wallet x ≠ None).

(** The table and the pending promises describe each other, and promise
    identities not yet allocated are unused. *)
Record well_formed (s : World) : Prop := {
  wf_table : ∀ k p, connectionPromises s !! k = Some p →
    ∃ op, connect_pending s !! p = Some op ∧ wallet_id (op_wallet op) = k;
  wf_pending : ∀ p op, connect_pending s !! p = Some op →
    connectionPromises s !! wallet_id (op_wallet op) = Some p;
  wf_fresh : ∀ p, next_promise s ≤ p → connect_pending s !! p = None
}.

(** [connect(w)] called on each controller of [cs] in turn, nothing settling
    in between. *)
Definition connect_each (cs : list nat) (w : Wallet) (s : World) : World :=
  foldl (λ s c, WalletConnection_connect c w s) s cs.

(** A world in which wallet [acme] is being connected by controller 1, with
    controller 2 waiting on the same promise, while controller 0 is
    disconnecting from it. *)
Definition busy_world : World :=
  run [Connect 0 acme; SettleConnect 0 (Fulfilled acme_output);
       Disconnect 0; Connect 1 acme; Connect 2 acme] empty_world.

(** A use of the identity cache. *)
Inductive Derivation :=
  | DeriveWallet (w : Wallet)
  | DeriveAccount (w : Wallet) (a : WalletAccount).

Definition derive (d : Derivation) (r : UiRegistry) : UiRegistry :=
  match d with
  | DeriveWallet w => (getOrCreateUiWalletForStandardWallet w r).2
  | DeriveAccount w a => (getOrCreateUiWalletAccountForStandardWalletAccount w a r).2
  end.

Definition derive_all (l : list Derivation) (r : UiRegistry) : UiRegistry :=
  foldl (λ r d, derive d r) r l.

(** A store that was constructed and not destroyed: both registry listeners
    are installed, the [change] listeners are those of the wallets it shows,
    and its array was allocated in the past. *)
Record live (s : StoreWorld) : Prop := {
  live_disposers : disposers (store s) = [register; unregister];
  live_items : items (wallets (store s)) = items (registry s);
  live_listeners :
    eventDisposers (store s)
    = filter (λ w, has_feature StandardEvents w = true) (items (wallets (store s)));
  live_array : array_id (wallets (store s)) < next_array s
}.

(** ** Further predicates and worlds *)

(** The controllers whose [connect] awaits the promise: the one that created
    it, then those that found it in the table. *)
Definition waiters (op : ConnectOperation) : list nat :=
  op_owner op :: (op_adopters op).*1.

Definition waiting (s : World) (c : nat) : Prop :=
  ∃ p op, connect_pending s !! p = Some op ∧ c ∈ waiters op.

(** What holds of the controllers and the pending promises together. *)
Record coherent (s : World) : Prop := {
  coh_well_formed : well_formed s;
  coh_connecting : ∀ c, connecting (connection s c) = true ↔ waiting s c;
  coh_nodup : ∀ p op, connect_pending s !! p = Some op → NoDup (waiters op);
  coh_unique : ∀ p q op oq c,
    connect_pending s !! p = Some op → connect_pending s !! q = Some oq →
    c ∈ waiters op → c ∈ waiters oq → p = q;
  coh_same_wallet : ∀ p op c w,
    connect_pending s !! p = Some op → (c, w) ∈ op_adopters op →
    wallet_id w = wallet_id (op_wallet op)
}.

(** [store.destroy()] in a world. *)
Definition destroy_store (s : StoreWorld) : StoreWorld :=
  {| registry := registry s; store := destroy (store s);
     next_array := next_array s |}.

(** The registry (its snapshot), the identity cache, one [UiWalletsStore]
    listening to the registry, and the allocator of proxy references. *)
Record UiStoreWorld := {
  ui_snapshot : list Wallet;
  ui_store : UiWalletsStore;
  ui_registry : UiRegistry;
  ui_next_proxy : nat
}.

(** A program that constructs the store over a registry listing [initial]. *)
Definition new_UiStoreWorld (initial : list Wallet) (r : UiRegistry) : UiStoreWorld :=
  {| ui_snapshot := initial;
     ui_store := (new_UiWalletsStore initial 0 r).1;
     ui_registry := (new_UiWalletsStore initial 0 r).2;
     ui_next_proxy := length initial |}.

(** The registry changes its membership to [now] and emits [ev]; each
    listener installed by [setupWalletListeners] for [ev] runs
    [this.loadWallets()]. *)
Definition ui_store_step (e : RegistryEvent * list Wallet) (s : UiStoreWorld)
    : UiStoreWorld :=
  let '(st, r, k) :=
    foldl (λ srk _, (loadWallets e.2 srk.2 srk.1.1 srk.1.2, srk.2 + length e.2))
      (ui_store s, ui_registry s, ui_next_proxy s)
      (filter (λ d, d = e.1) (ui_disposers (ui_store s))) in
  {| ui_snapshot := e.2; ui_store := st; ui_registry := r; ui_next_proxy := k |}.

Definition ui_store_run (l : list (RegistryEvent * list Wallet)) (s : UiStoreWorld)
    : UiStoreWorld :=
  foldl (λ s e, ui_store_step e s) s l.

(** * Properties *)

(** ** Reading a controller after the primitive state changes *)

Lemma connection_update_eq c f s :
  connection (update_connection c f s) c = f (connection s c).
Proof. unfold connection at 1. simpl. by rewrite lookup_insert_eq. Qed.

Lemma connection_update_ne c c' f s :
  c ≠ c' → connection (update_connection c f s) c' = connection s c'.
Proof. intros Hne. unfold connection. simpl. by rewrite lookup_insert_ne. Qed.

Lemma connection_update c c' f s :
  connection (update_connection c f s) c'
  = if decide (c = c') then f (connection s c') else connection s c'.
Proof.
  destruct (decide (c = c')) as [->|Hne].
  - apply connection_update_eq.
  - by apply connection_update_ne.
Qed.

Lemma connection_complete c r s c' : connection (complete c r s) c' = connection s c'.
Proof. reflexivity. Qed.

Lemma connection_start_connect c w s c' :
  connection (start_connect c w s) c' = connection s c'.
Proof. reflexivity. Qed.

Lemma connection_await_existing p c w s c' :
  connection (await_existing p c w s) c' = connection s c'.
Proof. reflexivity. Qed.

Lemma connection_forget_connect p w s c' :
  connection (forget_connect p w s) c' = connection s c'.
Proof. reflexivity. Qed.

Lemma connection_start_disconnect c w s c' :
  connection (start_disconnect c w s) c' = connection s c'.
Proof. reflexivity. Qed.

Lemma connection_forget_disconnect d s c' :
  connection (forget_disconnect d s) c' = connection s c'.
Proof. reflexivity. Qed.

Ltac read_connection :=
  repeat first
    [ rewrite connection_complete | rewrite connection_start_connect
    | rewrite connection_await_existing | rewrite connection_forget_connect
    | rewrite connection_start_disconnect | rewrite connection_forget_disconnect
    | rewrite connection_update_eq ];
  simpl.

(** Resuming the adopters leaves every table and log but [connections] and
    [completed] alone, and touches only the adopters. *)
Lemma resume_adopters_tables o l s :
  connectionPromises (resume_adopters o l s) = connectionPromises s
  ∧ connect_pending (resume_adopters o l s) = connect_pending s
  ∧ disconnect_pending (resume_adopters o l s) = disconnect_pending s
  ∧ next_promise (resume_adopters o l s) = next_promise s
  ∧ connect_invocations (resume_adopters o l s) = connect_invocations s
  ∧ disconnect_invocations (resume_adopters o l s) = disconnect_invocations s.
Proof.
  revert s. induction l as [|[c w] l IH]; intros s; [done|].
  unfold resume_adopters in *. simpl. specialize (IH
    (complete c (Fulfilled ()) (update_connection c (resume_adopter w o) s))).
  simpl in IH. exact IH.
Qed.

Lemma resume_adopters_other o l s c :
  c ∉ l.*1 → connection (resume_adopters o l s) c = connection s c.
Proof.
  revert s. induction l as [|[c' w] l IH]; intros s Hc; [done|].
  simpl in Hc. apply not_elem_of_cons in Hc as [Hne Hc].
  unfold resume_adopters in *. simpl. rewrite IH by done.
  rewrite connection_complete. by apply connection_update_ne.
Qed.

(** A property of single controllers that every callback keeps is kept by
    every action. *)
Section preserved.
Variable P : WalletConnection → Prop.
Hypothesis P_connecting : ∀ b x, P x → P (set_connecting b x).
Hypothesis P_error : ∀ e x, P x → P (set_error e x).
Hypothesis P_connected : ∀ w result x, P x → P (set_connected w result x).
Hypothesis P_clear : ∀ x, P x → P (clear_connection x).

Lemma update_connection_preserved c f s c' :
  (∀ x, P x → P (f x)) →
  P (connection s c') → P (connection (update_connection c f s) c').
Proof.
  intros Hf HP. rewrite connection_update. case_decide; auto.
Qed.

Lemma resume_adopters_preserved o l s c :
  P (connection s c) → P (connection (resume_adopters o l s) c).
Proof.
  revert s. induction l as [|[c' w] l IH]; intros s HP; [done|].
  unfold resume_adopters in *. simpl. apply IH.
  rewrite connection_complete. apply update_connection_preserved; [|done].
  intros x Hx. unfold resume_adopter. destruct o; auto.
Qed.

Lemma step_preserved a s c :
  P (connection s c) → P (connection (step a s) c).
Proof.
  intros HP. destruct a as [c0 w|c0|p o|d o]; simpl.
  - unfold WalletConnection_connect.
    destruct (connecting (connection s c0)); [done|].
    assert (P (connection (update_connection c0
               (λ x, set_error None (set_connecting true x)) s) c)) as HP'.
    { apply update_connection_preserved; auto. }
    simpl. destruct (connectionPromises s !! wallet_id w); [done|].
    destruct (has_feature StandardConnect w); [done|].
    rewrite connection_complete. apply update_connection_preserved; auto.
  - unfold WalletConnection_disconnect.
    destruct (wallet (connection s c0)) as [w|]; [|done].
    destruct (has_feature StandardDisconnect w); [done|].
    rewrite connection_complete. apply update_connection_preserved; auto.
  - unfold settle_connect.
    destruct (connect_pending s !! p) as [op|]; [|done].
    apply resume_adopters_preserved. rewrite connection_complete.
    apply update_connection_preserved.
    { intros x Hx. unfold resume_owner. destruct o; auto. }
    rewrite connection_forget_connect.
    destruct o; [|done]. apply update_connection_preserved; auto.
  - unfold settle_disconnect.
    destruct (disconnect_pending s !! d) as [c0|]; [|done].
    rewrite connection_complete. apply update_connection_preserved.
    { intros x Hx. unfold resume_disconnect. destruct o; auto. }
    by rewrite connection_forget_disconnect.
Qed.

Lemma run_preserved l s c :
  P (connection s c) → P (connection (run l s) c).
Proof.
  revert s. induction l as [|a l IH]; intros s HP; [done|].
  simpl. apply IH. by apply step_preserved.
Qed.
End preserved.

(** ** The state machine of [WalletConnection] *)

Lemma consistent_new : consistent new_WalletConnection.
Proof. split; [split|]; simpl; congruence. Qed.

(** C10: every operation of [WalletConnection] (a [connect] call on any
    wallet, a [disconnect] call, and the settling of either kind of promise,
    fulfilled or rejected, for the creator of the promise and for those that
    adopted it) keeps, for every controller, that [connected] is true exactly
    when [wallet] is non-null and that [account] is non-null only when
    [wallet] is. *)
Theorem step_consistent a s c :
  consistent (connection s c) → consistent (connection (step a s) c).
Proof.
  apply step_preserved; unfold consistent; simpl; intros; try tauto;
    (split; [split|]; congruence).
Qed.

Lemma step_consistent_witness :
  consistent (connection (step (SettleConnect 2 (Fulfilled acme_output)) busy_world) 2).
Proof.
  apply (step_consistent (SettleConnect 2 (Fulfilled acme_output)) busy_world 2).
  vm_compute. split; [split|]; congruence.
Defined.

(** Hence every controller of every world reached from the initial one is
    consistent. *)
Lemma reachable_consistent l c : consistent (connection (run l empty_world) c).
Proof. apply run_preserved with (P := consistent).
  1-4: unfold consistent; simpl; intros; try tauto;
    (split; [split|]; congruence).
  apply consistent_new.
Qed.

(** C4: [connect] on a wallet whose [features] lacks [standard:connect], on an
    idle controller and with no promise registered for that wallet, ends at
    once: no capability is invoked, nothing is registered or left pending,
    the returned promise fulfils, and the controller is idle again, with
    [error === null], [connected === false] and [connecting === false]. *)
Theorem connect_without_capability c w s :
  has_feature StandardConnect w = false →
  is_idle (connection s c) →
  connectionPromises s !! wallet_id w = None →
  let s' := WalletConnection_connect c w s in
  is_idle (connection s' c)
  ∧ connect_invocations s' = connect_invocations s
  ∧ disconnect_invocations s' = disconnect_invocations s
  ∧ connectionPromises s' = connectionPromises s
  ∧ connect_pending s' = connect_pending s
  ∧ completed s' = completed s ++ [(c, Fulfilled ())].
Proof.
  intros Hno (Hw & Ha & Hc & Hd & He) Htab. unfold WalletConnection_connect.
  rewrite Hc. simpl. rewrite Htab, Hno. simpl.
  read_connection. unfold is_idle. simpl. by rewrite Hw, Ha, Hd.
Qed.

Lemma connect_without_capability_witness :
  is_idle (connection (WalletConnection_connect 0 basic empty_world) 0).
Proof.
  apply (connect_without_capability 0 basic empty_world).
  - vm_compute. reflexivity.
  - vm_compute. repeat split.
  - vm_compute. reflexivity.
Defined.

Lemma shows_wallet_assigned w : shows_wallet (Some w) w.
Proof. exists w. by repeat split. Qed.

Lemma shows_account_assigned a : shows_account a a.
Proof. destruct a as [a|]; [|done]. by exists a. Qed.

(** C3: a [connect] call that reaches the capability invocation (controller
    not connecting, no promise registered for the wallet, capability present)
    invokes it once.  If the promise fulfils, the controller is connected:
    [wallet] shows the wallet passed in and [account] the first returned
    account, or is null when there is none ([$state] fields: the properties
    are those of the assigned objects), [connecting] is false and [error]
    null.  If it rejects, [error] is the cause, [connecting] is false, and
    [wallet], [account] and [connected] are not assigned: they are what they
    were before the call, so unset when they were unset. *)
Theorem connect_settles c w o s :
  connecting (connection s c) = false →
  connectionPromises s !! wallet_id w = None →
  has_feature StandardConnect w = true →
  let before := connection s c in
  let s1 := WalletConnection_connect c w s in
  let after := connection (settle_connect (next_promise s) o s1) c in
  connect_invocations s1 = connect_invocations s ++ [wallet_id w]
  ∧ connecting (connection s1 c) = true
  ∧ match o with
    | Fulfilled result =>
        shows_wallet (wallet after) w
        ∧ shows_account (account after) (head (accounts result))
        ∧ connected after = true
        ∧ connecting after = false
        ∧ error after = None
    | RejectedWith e =>
        error after = Some e
        ∧ connecting after = false
        ∧ wallet after = wallet before
        ∧ account after = account before
        ∧ connected after = connected before
        ∧ (wallet before = None → account before = None →
           wallet after = None ∧ account after = None)
    end.
Proof.
  intros Hc Htab Hf. unfold WalletConnection_connect. rewrite Hc. simpl.
  rewrite Htab, Hf. split; [done|].
  split. { by read_connection. }
  unfold settle_connect. simpl. rewrite lookup_insert_eq. simpl.
  destruct o as [result|e]; read_connection.
  - split; [apply shows_wallet_assigned|].
    split; [apply shows_account_assigned|done].
  - repeat split; try done. all: by intros -> ->.
Qed.

Lemma connect_settles_witness :
  shows_wallet
    (wallet (connection (settle_connect (next_promise empty_world)
               (Fulfilled acme_output) (WalletConnection_connect 0 acme empty_world)) 0))
    acme.
Proof.
  destruct (connect_settles 0 acme (Fulfilled acme_output) empty_world)
    as (_ & _ & H & _); [vm_compute; reflexivity ..|exact H].
Defined.

(** C1, as the code has it: on a connected controller whose wallet has the
    [standard:disconnect] feature, [disconnect] invokes it once.  If the
    promise rejects, [error] is the cause and [wallet], [account] and
    [connected] keep their values, so the controller still holds the wallet;
    if it fulfils, [wallet], [account] and [error] are null and [connected] is
    false. *)
Theorem disconnect_outcome c w o s :
  wallet (connection s c) = Some w →
  has_feature StandardDisconnect w = true →
  let before := connection s c in
  let s1 := WalletConnection_disconnect c s in
  let after := connection (settle_disconnect (next_promise s) o s1) c in
  disconnect_invocations s1 = disconnect_invocations s ++ [wallet_id w]
  ∧ connection s1 c = before
  ∧ match o with
    | RejectedWith e =>
        error after = Some e
        ∧ wallet after = Some w
        ∧ account after = account before
        ∧ connected after = connected before
    | Fulfilled _ =>
        wallet after = None ∧ account after = None
        ∧ connected after = false ∧ error after = None
    end.
Proof.
  intros Hw Hf. unfold WalletConnection_disconnect. rewrite Hw, Hf. simpl.
  split; [done|]. split; [done|].
  unfold settle_disconnect. simpl. rewrite lookup_insert_eq. simpl.
  destruct o; by read_connection.
Qed.

Lemma disconnect_outcome_witness :
  let s := run [Connect 0 acme; SettleConnect 0 (Fulfilled acme_output)] empty_world in
  wallet (connection (settle_disconnect (next_promise s) (RejectedWith boom)
            (WalletConnection_disconnect 0 s)) 0) = Some acme.
Proof.
  intros s.
  destruct (disconnect_outcome 0 acme (RejectedWith boom) s)
    as (_ & _ & _ & H & _); [vm_compute; reflexivity ..|exact H].
Defined.

(** C1 as stated fails: after a successful connect to [acme], a [disconnect]
    whose capability rejects leaves the controller holding the wallet and its
    account, with [connected] true. *)
Lemma disconnect_rejected_counterexample :
  let s := run [Connect 0 acme; SettleConnect 0 (Fulfilled acme_output);
                Disconnect 0; SettleDisconnect 1 (RejectedWith boom)] empty_world in
  connection s 0
  = {| wallet := Some acme; account := Some acme_account; connecting := false;
       connected := true; error := Some boom |}
  ∧ ¬ (wallet (connection s 0) = None ∧ account (connection s 0) = None
       ∧ connected (connection s 0) = false ∧ error (connection s 0) = Some boom).
Proof.
  split; [vm_compute; reflexivity|].
  vm_compute. intros [H _]. discriminate H.
Qed.

(** ** Who learns of a rejected capability call *)

Lemma resume_adopters_completed o l s :
  completed (resume_adopters o l s)
  = completed s ++ ((λ cw : nat * Wallet, (cw.1, Fulfilled ())) <$> l).
Proof.
  revert s. induction l as [|[c w] l IH]; intros s.
  - simpl. by rewrite app_nil_r.
  - unfold resume_adopters in *. simpl. rewrite IH. simpl.
    by rewrite <- app_assoc.
Qed.

Lemma resume_adopters_rejected e l s c :
  c ∈ l.*1 → error (connection (resume_adopters (RejectedWith e) l s) c) = Some e.
Proof.
  revert s. induction l as [|[c' w] l IH]; intros s Hc; [by inversion Hc|].
  unfold resume_adopters in *. simpl in *.
  destruct (decide (c ∈ l.*1)) as [Hin|Hout]; [by apply IH|].
  apply elem_of_cons in Hc as [->|?]; [|done].
  fold (resume_adopters (RejectedWith e) l
    (complete c' (Fulfilled ())
       (update_connection c' (resume_adopter w (RejectedWith e)) s))).
  rewrite resume_adopters_other by done. by read_connection.
Qed.

(** C6, as the code has it.  When the wallet's promise rejects with [e]:
    - every [WalletConnection.connect] call awaiting it, the one that invoked
      the capability and those that adopted its promise, stores [e] in
      [error], and the promise each call returned fulfils;
    - a [WalletConnection.disconnect] call awaiting it stores [e] in [error]
      and its promise fulfils;
    - [UiWalletConnect], [UiWalletDisconnect], [WalletConnect] and
      [WalletDisconnect] store [e] in [error] and the promise they returned
      rejects with [e]. *)
Theorem rejection_reporting p op d c e s w uc r ud wc wd :
  connect_pending s !! p = Some op →
  disconnect_pending s !! d = Some c →
  let s1 := settle_connect p (RejectedWith e) s in
  let s2 := settle_disconnect d (RejectedWith e) s in
  (completed s1
     = completed s ++ (op_owner op, Fulfilled ())
         :: ((λ cw : nat * Wallet, (cw.1, Fulfilled ())) <$> op_adopters op)
   ∧ ∀ c', c' ∈ op_owner op :: (op_adopters op).*1 →
       error (connection s1 c') = Some e)
  ∧ (completed s2 = completed s ++ [(c, Fulfilled ())]
     ∧ error (connection s2 c) = Some e)
  ∧ (∃ uc', UiWalletConnect_settle w (RejectedWith e) uc r = (RejectedWith e, uc', r)
            ∧ uc_error uc' = Some e)
  ∧ (∃ ud', UiWalletDisconnect_settle (RejectedWith e) ud = (RejectedWith e, ud')
            ∧ ud_error ud' = Some e)
  ∧ (∃ wc', WalletConnect_settle (RejectedWith e) wc = (RejectedWith e, wc')
            ∧ wc_error wc' = Some e)
  ∧ (∃ wd', WalletDisconnect_settle (RejectedWith e) wd = (RejectedWith e, wd')
            ∧ wd_error wd' = Some e).
Proof.
  intros Hp Hd. simpl. repeat split; try (eexists; split; reflexivity).
  - unfold settle_connect. rewrite Hp.
    rewrite resume_adopters_completed. simpl. by rewrite <- app_assoc.
  - intros c' Hc'. unfold settle_connect. rewrite Hp.
    destruct (decide (c' ∈ (op_adopters op).*1)) as [Hin|Hout].
    + by apply resume_adopters_rejected.
    + apply elem_of_cons in Hc' as [->|?]; [|done].
      rewrite resume_adopters_other by done. by read_connection.
  - unfold settle_disconnect. by rewrite Hd.
  - unfold settle_disconnect. rewrite Hd. by read_connection.
Qed.

Lemma rejection_reporting_witness :
  completed (settle_connect 2 (RejectedWith boom) busy_world)
  = completed busy_world ++ [(1, Fulfilled ()); (2, Fulfilled ())].
Proof.
  pose proof (rejection_reporting 2
    {| op_wallet := acme; op_owner := 1; op_adopters := [(2, acme)] |}
    1 0 boom busy_world acme (new_UiWalletConnect
      {| ui_id := 0; ui_name := "Acme"; ui_features := [] |}) empty_registry
    {| ud_disconnecting := true; ud_error := None;
       ud_disconnectionPromise := Some 0;
       ud_uiWallet := {| ui_id := 0; ui_name := "Acme"; ui_features := [] |} |}
    {| wc_connecting := true; wc_error := None; wc_connectionPromise := Some 0;
       wc_wallet := acme |}
    {| wd_disconnecting := true; wd_error := None;
       wd_disconnectionPromise := Some 0; wd_wallet := acme |}) as H.
  destruct H as [[H _] _]; [vm_compute; reflexivity ..|exact H].
Defined.

(** C6 as stated fails: the wallet's [connect] rejects, and the promise that
    [WalletConnection.connect] returned fulfils; the cause is only stored. *)
Lemma connect_rejection_counterexample :
  let s := run [Connect 0 acme; SettleConnect 0 (RejectedWith boom)] empty_world in
  connect_invocations s = [wallet_id acme]
  ∧ error (connection s 0) = Some boom
  ∧ completed s = [(0, Fulfilled ())]
  ∧ (0, RejectedWith boom) ∉ completed s.
Proof.
  vm_compute. repeat split. intros H.
  apply list_elem_of_singleton in H. discriminate H.
Qed.

(** ** The table of pending connections *)

Lemma well_formed_ext s s' :
  connectionPromises s' = connectionPromises s →
  connect_pending s' = connect_pending s →
  next_promise s ≤ next_promise s' →
  well_formed s → well_formed s'.
Proof.
  intros Ht Hp Hn [H1 H2 H3]. split; rewrite ?Ht, ?Hp; auto.
  intros p Hle. apply H3. lia.
Qed.

Lemma well_formed_empty : well_formed empty_world.
Proof. split; simpl; intros; simplify_map_eq. done. Qed.

Lemma well_formed_start_connect c w s :
  connectionPromises s !! wallet_id w = None →
  well_formed s → well_formed (start_connect c w s).
Proof.
  intros Hnone [H1 H2 H3]. split; simpl.
  - intros k p Hk. destruct (decide (wallet_id w = k)) as [<-|Hne].
    + rewrite lookup_insert_eq in Hk. injection Hk as <-.
      rewrite lookup_insert_eq. by eexists.
    + rewrite lookup_insert_ne in Hk by done.
      destruct (H1 k p Hk) as (op & Hop & Hid).
      exists op. split; [|done]. rewrite lookup_insert_ne; [done|].
      intros <-. rewrite H3 in Hop; [done|lia].
  - intros p op Hp. destruct (decide (next_promise s = p)) as [<-|Hne].
    + rewrite lookup_insert_eq in Hp. injection Hp as <-. simpl.
      by rewrite lookup_insert_eq.
    + rewrite lookup_insert_ne in Hp by done.
      pose proof (H2 p op Hp) as Hk.
      rewrite lookup_insert_ne; [done|]. intros Heq.
      rewrite <- Heq, Hnone in Hk. done.
  - intros p Hle. rewrite lookup_insert_ne by lia. apply H3. lia.
Qed.

Lemma well_formed_await_existing p c w s :
  well_formed s → well_formed (await_existing p c w s).
Proof.
  intros [H1 H2 H3]. split; simpl.
  - intros k q Hk. destruct (H1 k q Hk) as (op & Hop & Hid).
    rewrite lookup_alter. case_decide as Hpq.
    + subst q. rewrite Hop. simpl. by eexists.
    + by exists op.
  - intros q op. rewrite lookup_alter. case_decide as Hpq.
    + subst q. destruct (connect_pending s !! p) as [op0|] eqn:Hop; [|done].
      simpl. intros [= <-]. simpl. by apply H2.
    + apply H2.
  - intros q Hle. rewrite lookup_alter.
    case_decide; subst; by rewrite (H3 q Hle).
Qed.

Lemma well_formed_forget_connect p op s :
  connect_pending s !! p = Some op →
  well_formed s → well_formed (forget_connect p (op_wallet op) s).
Proof.
  intros Hp [H1 H2 H3]. split; simpl.
  - intros k q Hk. apply lookup_delete_Some in Hk as [Hne Hk].
    destruct (H1 k q Hk) as (op' & Hop' & Hid).
    exists op'. split; [|done]. rewrite lookup_delete_ne; [done|].
    intros <-. congruence.
  - intros q op' Hq. apply lookup_delete_Some in Hq as [Hne Hq].
    rewrite lookup_delete_ne; [by apply H2|].
    intros Heq. pose proof (H2 q op' Hq) as Hk.
    rewrite <- Heq, (H2 p op Hp) in Hk. congruence.
  - intros q Hle. rewrite lookup_delete_ne; [by apply H3|].
    intros <-. rewrite H3 in Hp; done.
Qed.

(** Every action keeps the world well formed. *)
Lemma step_well_formed a s : well_formed s → well_formed (step a s).
Proof.
  intros Hwf.
  assert (∀ s', connectionPromises s' = connectionPromises s →
                connect_pending s' = connect_pending s →
                next_promise s ≤ next_promise s' → well_formed s') as Hsame.
  { intros s' ? ? ?. by apply (well_formed_ext s). }
  destruct a as [c w|c|p o|d o]; simpl.
  - unfold WalletConnection_connect.
    destruct (connecting (connection s c)); [by apply Hsame|].
    simpl. destruct (connectionPromises s !! wallet_id w) eqn:Htab.
    + apply well_formed_await_existing. by apply Hsame.
    + destruct (has_feature StandardConnect w).
      * apply well_formed_start_connect; [done|]. by apply Hsame.
      * by apply Hsame.
  - unfold WalletConnection_disconnect.
    destruct (wallet (connection s c)) as [w|]; [|by apply Hsame].
    destruct (has_feature StandardDisconnect w).
    + apply Hsame; simpl; auto.
    + by apply Hsame.
  - unfold settle_connect.
    destruct (connect_pending s !! p) as [op|] eqn:Hp; [|done].
    destruct (resume_adopters_tables o (op_adopters op)
      (complete (op_owner op) (Fulfilled ())
         (update_connection (op_owner op) (resume_owner o)
            (forget_connect p (op_wallet op)
               match o with
               | Fulfilled result =>
                   update_connection (op_owner op)
                     (set_connected (op_wallet op) result) s
               | RejectedWith _ => s
               end)))) as (Ht & Hq & _ & Hn & _).
    eapply well_formed_ext; [exact Ht|exact Hq|by rewrite Hn|].
    simpl. apply (well_formed_ext (forget_connect p (op_wallet op) s)).
    1-3: by destruct o.
    by apply well_formed_forget_connect.
  - unfold settle_disconnect.
    destruct (disconnect_pending s !! d) as [c|]; [|done].
    by apply Hsame.
Qed.



(** ** Single flight *)

Lemma alter_pending (f : ConnectOperation → ConnectOperation) p op
    (m : gmap nat ConnectOperation) :
  m !! p = Some op → alter f p m = <[p := f op]> m.
Proof.
  intros Hp. apply map_eq. intros q. rewrite lookup_alter, lookup_insert.
  case_decide; [|done]. subst q. by rewrite Hp.
Qed.

(** Calls that find the wallet's promise in the table wait for it: nothing is
    invoked, the table is untouched, and the callers queue up behind the
    promise in the order of their calls. *)
Lemma connect_each_adopts cs : ∀ w s p op,
  connectionPromises s !! wallet_id w = Some p →
  connect_pending s !! p = Some op →
  NoDup cs →
  (∀ c, c ∈ cs → connecting (connection s c) = false) →
  let s' := connect_each cs w s in
  connect_invocations s' = connect_invocations s
  ∧ connectionPromises s' = connectionPromises s
  ∧ connect_pending s'
    = <[p := {| op_wallet := op_wallet op; op_owner := op_owner op;
                op_adopters := op_adopters op ++ ((λ c, (c, w)) <$> cs) |}]>
        (connect_pending s)
  ∧ next_promise s' = next_promise s
  ∧ (∀ c, c ∈ cs →
       connection s' c = set_error None (set_connecting true (connection s c)))
  ∧ (∀ c, c ∉ cs → connection s' c = connection s c).
Proof.
  induction cs as [|c cs IH]; intros w s p op Htab Hp Hnd Hidle; simpl.
  - rewrite app_nil_r. repeat split; try done.
    + destruct op. simpl. by rewrite insert_id.
    + intros c Hc. by inversion Hc.
  - apply NoDup_cons in Hnd as [Hc Hnd].
    set (s1 := WalletConnection_connect c w s).
    assert (s1 = await_existing p c w
              (update_connection c (λ x, set_error None (set_connecting true x)) s))
      as Hs1.
    { unfold s1, WalletConnection_connect.
      rewrite (Hidle c) by apply list_elem_of_here. simpl. by rewrite Htab. }
    assert (∀ c', c' ≠ c → connection s1 c' = connection s c') as Hother.
    { intros c' Hne. rewrite Hs1, connection_await_existing.
      by apply connection_update_ne. }
    destruct (IH w s1 p (add_adopter c w op)) as (H1 & H2 & H3 & H4 & H5 & H6).
    + by rewrite Hs1.
    + rewrite Hs1. simpl. by rewrite (alter_pending _ _ op), lookup_insert_eq.
    + done.
    + intros c' Hc'. rewrite Hother by (intros ->; done).
      apply Hidle. by apply list_elem_of_further.
    + fold (connect_each cs w s1). rewrite H1, H2, H3, H4.
      repeat split; try (by rewrite Hs1).
      * rewrite Hs1. simpl. rewrite (alter_pending _ _ op) by done.
        rewrite insert_insert_eq. simpl. by rewrite <- app_assoc.
      * intros c' Hc'. destruct (decide (c' ∈ cs)) as [Hin|Hout].
        { rewrite H5 by done. rewrite Hother; [done|]. by intros ->. }
        apply elem_of_cons in Hc' as [->|?]; [|done].
        rewrite H6 by done. rewrite Hs1. by read_connection.
      * intros c' Hc'. apply not_elem_of_cons in Hc' as [Hne Hout].
        rewrite H6 by done. by apply Hother.
Qed.

(** While the wallet's promise is in the table, calls of [connect] for that
    wallet, by any controllers in any state, invoke nothing and leave the
    entry in place. *)
Lemma connect_each_invokes_nothing cs w s p :
  connectionPromises s !! wallet_id w = Some p →
  connect_invocations (connect_each cs w s) = connect_invocations s
  ∧ connectionPromises (connect_each cs w s) = connectionPromises s.
Proof.
  revert s. induction cs as [|c cs IH]; intros s Htab; [done|]. simpl.
  assert (connect_invocations (WalletConnection_connect c w s) = connect_invocations s
          ∧ connectionPromises (WalletConnection_connect c w s) = connectionPromises s)
    as [Hi Ht].
  { unfold WalletConnection_connect.
    destruct (connecting (connection s c)); [done|]. simpl. by rewrite Htab. }
  destruct (IH (WalletConnection_connect c w s)) as [H1 H2]; [by rewrite Ht|].
  fold (connect_each cs w (WalletConnection_connect c w s)).
  by rewrite H1, H2.
Qed.




(** ** [WalletsStore] and the registry *)

Lemma live_new initial : live (new_StoreWorld initial).
Proof. split; simpl; auto. Qed.

(** Running the [change] listener once per installed listener. *)
Lemma on_change_each {A} (l : list A) s :
  let s' := foldl (λ s _, on_change s) s l in
  registry s' = registry s
  ∧ items (wallets (store s')) = items (wallets (store s))
  ∧ disposers (store s') = disposers (store s)
  ∧ eventDisposers (store s') = eventDisposers (store s)
  ∧ next_array s' = next_array s + length l
  ∧ (l = [] → s' = s)
  ∧ (l ≠ [] → array_id (wallets (store s')) = next_array s + length l - 1).
Proof.
  revert s. induction l as [|x l IH]; intros s; simpl.
  - repeat split; try done; lia.
  - destruct (IH (on_change s)) as (H1 & H2 & H3 & H4 & H5 & H6 & H7).
    simpl in *. rewrite H1, H2, H3, H4, H5.
    repeat split; try done; try lia.
    intros _. destruct l as [|y l].
    + rewrite H6 by done. simpl. lia.
    + rewrite H7 by done. simpl. lia.
Qed.

Lemma registry_listeners ev :
  filter (λ d, d = ev) [register; unregister] = [ev].
Proof. by destruct ev. Qed.

Lemma store_step_live e s : live s → live (store_step e s).
Proof.
  intros [Hd Hi Hl Ha]. destruct e as [ev now|w]; simpl.
  - rewrite Hd, registry_listeners. split; simpl; auto.
  - destruct (on_change_each
      (filter (λ v, wallet_id v = wallet_id w) (eventDisposers (store s))) s)
      as (H1 & H2 & H3 & H4 & H5 & H6 & H7).
    split.
    + by rewrite H3.
    + by rewrite H2, H1.
    + by rewrite H4, H2.
    + destruct (filter (λ v, wallet_id v = wallet_id w) (eventDisposers (store s)))
        as [|v l] eqn:Hf.
      * rewrite H6 by done. done.
      * rewrite H7, H5 by done. simpl. lia.
Qed.

Lemma store_run_live l s : live s → live (store_run l s).
Proof.
  revert s. induction l as [|e l IH]; intros s Hs; [done|].
  simpl. apply IH. by apply store_step_live.
Qed.

Lemma same_wallets_refl l : Forall2 same_wallet l l.
Proof. induction l; constructor; [by split|done]. Qed.

(** C7: the constructor reads [get()] and shows its wallets.  After any
    sequence of registry events and [change] notifications the store shows
    the wallets of the registry's snapshot, in the same order; right after
    each [register] or [unregister] event, whatever the new membership
    [now], it shows exactly [now]: the listener reads the snapshot again and
    keeps nothing of the previous array.  [wallets] being a [$state] field,
    the sequence it shows is a proxy, a reference other than the array
    [get()] returned, and the wallets are compared by their properties. *)
Theorem store_follows_registry initial l :
  (items (registry (new_StoreWorld initial)) = initial
   ∧ Forall2 same_wallet (items (wallets (store (new_StoreWorld initial)))) initial
   ∧ array_id (wallets (store (new_StoreWorld initial)))
     ≠ array_id (registry (new_StoreWorld initial)))
  ∧ (let s := store_run l (new_StoreWorld initial) in
     Forall2 same_wallet (items (wallets (store s))) (items (registry s))
     ∧ ∀ ev now,
         let s' := store_step (RegistryEmits ev now) s in
         items (registry s') = now
         ∧ Forall2 same_wallet (items (wallets (store s'))) now
         ∧ array_id (wallets (store s')) ≠ array_id (registry s')).
Proof.
  split.
  { split; [done|]. split; [apply same_wallets_refl|]. simpl. lia. }
  pose proof (store_run_live l _ (live_new initial)) as [Hd Hi Hl Ha].
  simpl. split; [rewrite Hi; apply same_wallets_refl|]. intros ev now.
  rewrite Hd, registry_listeners. simpl.
  split; [done|]. split; [apply same_wallets_refl|lia].
Qed.

(** C8: in a store that was constructed and has followed any events since,
    a [change] notification from a wallet it shows that has the
    [standard:events] feature replaces the array by a new one (another
    identity) with the same wallets in the same order; the registry is not
    read. *)
Theorem change_replaces_array initial l w :
  let s := store_run l (new_StoreWorld initial) in
  w ∈ items (wallets (store s)) →
  has_feature StandardEvents w = true →
  let s' := store_step (WalletEmitsChange w) s in
  items (wallets (store s')) = items (wallets (store s))
  ∧ array_id (wallets (store s')) ≠ array_id (wallets (store s))
  ∧ registry s' = registry s.
Proof.
  intros s Hw Hf.
  pose proof (store_run_live l _ (live_new initial)) as [Hd Hi Hl Ha].
  fold s in Hd, Hi, Hl, Ha. simpl.
  destruct (on_change_each
    (filter (λ v, wallet_id v = wallet_id w) (eventDisposers (store s))) s)
    as (H1 & H2 & H3 & H4 & H5 & H6 & H7).
  split; [done|]. split; [|done].
  assert (w ∈ filter (λ v, wallet_id v = wallet_id w) (eventDisposers (store s)))
    as Hin.
  { apply list_elem_of_filter. split; [done|].
    rewrite Hl. by apply list_elem_of_filter. }
  destruct (filter (λ v, wallet_id v = wallet_id w) (eventDisposers (store s)))
    as [|v listeners]; [by inversion Hin|].
  rewrite H7 by done. simpl. lia.
Qed.

Lemma change_replaces_array_witness :
  let s := store_run [RegistryEmits register [basic; acme]] (new_StoreWorld [basic]) in
  array_id (wallets (store (store_step (WalletEmitsChange acme) s)))
  ≠ array_id (wallets (store s)).
Proof.
  intros s.
  destruct (change_replaces_array [basic] [RegistryEmits register [basic; acme]] acme)
    as (_ & H & _).
  - vm_compute. apply list_elem_of_further, list_elem_of_here.
  - vm_compute. reflexivity.
  - exact H.
Defined.

(** ** The identity cache *)

Lemma getOrCreate_hit w u r :
  ui_cache r !! wallet_id w = Some u →
  getOrCreateUiWalletForStandardWallet w r = (u, r).
Proof. intros H. unfold getOrCreateUiWalletForStandardWallet. by rewrite H. Qed.

Lemma getOrCreate_cached w r :
  ui_cache (getOrCreateUiWalletForStandardWallet w r).2 !! wallet_id w
  = Some (getOrCreateUiWalletForStandardWallet w r).1.
Proof.
  unfold getOrCreateUiWalletForStandardWallet.
  destruct (ui_cache r !! wallet_id w) eqn:H; simpl; [done|].
  by rewrite lookup_insert_eq.
Qed.

(** An entry of the cache is never replaced. *)
Lemma getOrCreate_keeps w r k u :
  ui_cache r !! k = Some u →
  ui_cache (getOrCreateUiWalletForStandardWallet w r).2 !! k = Some u.
Proof.
  intros Hk. unfold getOrCreateUiWalletForStandardWallet.
  destruct (ui_cache r !! wallet_id w) eqn:H; simpl; [done|].
  rewrite lookup_insert_ne; [done|]. intros Heq. congruence.
Qed.

Lemma derive_keeps d r k u :
  ui_cache r !! k = Some u → ui_cache (derive d r) !! k = Some u.
Proof.
  intros Hk. destruct d as [w|w a]; simpl.
  - by apply getOrCreate_keeps.
  - unfold getOrCreateUiWalletAccountForStandardWalletAccount.
    by destruct (ui_account_cache r !! (wallet_id w, account_id a)).
Qed.

Lemma derive_all_keeps l r k u :
  ui_cache r !! k = Some u → ui_cache (derive_all l r) !! k = Some u.
Proof.
  revert r. induction l as [|d l IH]; intros r Hk; [done|].
  simpl. apply IH. by apply derive_keeps.
Qed.

Lemma map_cached_keeps get r k u :
  ui_cache r !! k = Some u →
  ui_cache (map_cached getOrCreateUiWalletForStandardWallet get r).2 !! k = Some u.
Proof.
  revert r. induction get as [|w get IH]; intros r Hk; [done|].
  simpl. pose proof (getOrCreate_keeps w r k u Hk) as Hk1.
  destruct (getOrCreateUiWalletForStandardWallet w r) as [y r1].
  specialize (IH r1 Hk1).
  by destruct (map_cached getOrCreateUiWalletForStandardWallet get r1).
Qed.

(** After mapping a list of wallets, each is cached under the handle that was
    returned for it. *)
Lemma map_cached_cached get r :
  Forall2 (λ w u, ui_cache (useWallets get r).2 !! wallet_id w = Some u)
    get (useWallets get r).1.
Proof.
  unfold useWallets. revert r. induction get as [|w get IH]; intros r; simpl.
  - constructor.
  - pose proof (getOrCreate_cached w r) as Hw.
    destruct (getOrCreateUiWalletForStandardWallet w r) as [y r1]. simpl in Hw.
    specialize (IH r1).
    pose proof (map_cached_keeps get r1 _ _ Hw) as Hk.
    destruct (map_cached getOrCreateUiWalletForStandardWallet get r1) as [ys r2].
    by constructor.
Qed.

Lemma map_cached_hits get us r :
  Forall2 (λ w u, ui_cache r !! wallet_id w = Some u) get us →
  useWallets get r = (us, r).
Proof.
  unfold useWallets. induction 1 as [|w u get us Hw _ IH]; simpl; [done|].
  by rewrite (getOrCreate_hit w u r Hw), IH.
Qed.

Lemma state_proxies_targets {A} k (l : list A) :
  proxy_target <$> state_proxies k l = l.
Proof. revert k. induction l as [|x l IH]; intros k; simpl; by rewrite ?IH. Qed.

(** C9, on the cache as the specification describes it: deriving the handle
    of a wallet again, after any other derivations of wallet and account
    handles, returns the handle (same identity) that the first derivation
    returned; so [useWallets], which maps the registry's snapshot through the
    cache, returns the same handles each time it sees the same wallets, and
    the handles that [loadWallets] derives, which its [$state] field shows
    through proxies, are the same at every load. *)
Theorem derivation_stable w l r get :
  (getOrCreateUiWalletForStandardWallet w
     (derive_all l (getOrCreateUiWalletForStandardWallet w r).2)).1
  = (getOrCreateUiWalletForStandardWallet w r).1
  ∧ (useWallets get (derive_all l (useWallets get r).2)).1 = (useWallets get r).1
  ∧ (∀ st st' k k',
       proxy_target <$>
         ui_wallets (loadWallets get k' st' (derive_all l (loadWallets get k st r).2)).1
       = proxy_target <$> ui_wallets (loadWallets get k st r).1).
Proof.
  assert ((useWallets get (derive_all l (useWallets get r).2)).1
          = (useWallets get r).1) as Huse.
  { erewrite map_cached_hits; [done|].
    eapply Forall2_impl; [apply map_cached_cached|].
    intros w' u Hu. by apply derive_all_keeps. }
  split; [|split; [done|]].
  - erewrite getOrCreate_hit; [done|].
    apply derive_all_keeps, getOrCreate_cached.
  - intros st st' k k'. unfold loadWallets, useWallets in *.
    destruct (map_cached getOrCreateUiWalletForStandardWallet get r) as [us r1].
    simpl in *.
    destruct (map_cached getOrCreateUiWalletForStandardWallet get (derive_all l r1))
      as [us' r2].
    simpl in *. rewrite !state_proxies_targets. done.
Qed.

(** ** [UiWalletConnect] and a wallet that left the registry *)

Lemma find_by_name_None name get :
  Forall (λ w, wallet_name w ≠ name) get → find_by_name name get = None.
Proof.
  unfold find_by_name. induction 1 as [|w get Hw _ IH]; simpl; [done|].
  by rewrite bool_decide_eq_false_2.
Qed.

(** A wallet is found as soon as one of that name is listed, whatever its
    identity. *)
Lemma find_by_name_Some name get w :
  w ∈ get → wallet_name w = name →
  ∃ w', find_by_name name get = Some w' ∧ wallet_name w' = name.
Proof.
  unfold find_by_name. intros Hin Hname.
  induction get as [|v get IH]; [by inversion Hin|]. simpl.
  destruct (bool_decide (wallet_name v = name)) eqn:Hv.
  - exists v. split; [done|]. by apply bool_decide_eq_true in Hv.
  - apply IH. apply elem_of_cons in Hin as [->|?]; [|done].
    apply bool_decide_eq_false in Hv. done.
Qed.

(** With a connection in flight [connect] hands back its promise and reads
    neither the registry nor the cache. *)
Lemma connect_in_flight get p q this r :
  uc_connectionPromise this = Some q →
  UiWalletConnect_connect get p this r = (Existing q, this, r).
Proof. intros H. unfold UiWalletConnect_connect. by rewrite H. Qed.

Lemma find_by_name_listed name get m :
  find_by_name name get = Some m → m ∈ get ∧ wallet_name m = name.
Proof.
  unfold find_by_name. intros H. apply List.find_some in H as [Hin Hname].
  split; [by apply list_elem_of_In|]. by apply bool_decide_eq_true in Hname.
Qed.

Lemma getWalletFeature_error u f r e :
  getWalletFeature u f r = inl e → e = CapabilityNotFound.
Proof.
  unfold getWalletFeature. destruct (bool_decide (f ∈ ui_features u)).
  - destruct (getWalletForHandle u r); [done|]. by intros [= <-].
  - by intros [= <-].
Qed.

(** C5: a [UiWalletConnect] with no connection in flight, whose handle's name
    is the name of no wallet in the registry's snapshot: [connect] throws the
    error "Wallet ... not found in global registry" (its promise rejects with
    it), stores it in [error], leaves [connecting] false, creates no promise
    and does not touch the cache.  [connect] resolves by name, not by
    identity: had the snapshot listed any wallet of that name, whatever its
    identity and whatever the cache holds, the same call would have picked a
    listed wallet of that name, derived its handle, and gone on with
    [connecting] true and [error] null instead of throwing that error. *)
Theorem connect_unknown_wallet get p this r :
  uc_connectionPromise this = None →
  Forall (λ w, wallet_name w ≠ ui_name (uc_uiWallet this)) get →
  let e := not_found_error (ui_name (uc_uiWallet this)) in
  (∃ this',
     UiWalletConnect_connect get p this r = (Throws e, this', r)
     ∧ uc_error this' = Some e
     ∧ uc_connecting this' = false
     ∧ uc_connectionPromise this' = None)
  ∧ (∀ w get', w ∈ get' → wallet_name w = ui_name (uc_uiWallet this) →
       ∃ m, m ∈ get' ∧ wallet_name m = ui_name (uc_uiWallet this)
            ∧ (UiWalletConnect_connect get' p this r).2
              = (getOrCreateUiWalletForStandardWallet m r).2
            ∧ (UiWalletConnect_connect get' p this r).1.1 ≠ Throws e
            ∧ uc_error (UiWalletConnect_connect get' p this r).1.2 = None
            ∧ uc_connecting (UiWalletConnect_connect get' p this r).1.2 = true).
Proof.
  intros Hp Hget. simpl. split.
  - unfold UiWalletConnect_connect. rewrite Hp, (find_by_name_None _ _ Hget).
    by eexists.
  - intros w get' Hin Hname.
    destruct (find_by_name_Some _ _ _ Hin Hname) as (m & Hfind & _).
    destruct (find_by_name_listed _ _ _ Hfind) as [Hm Hmname].
    exists m. split; [done|]. split; [done|].
    unfold UiWalletConnect_connect. rewrite Hp, Hfind.
    destruct (getOrCreateUiWalletForStandardWallet m r) as [fresh r0].
    destruct (getWalletForHandle fresh r0) as [w0|];
      destruct (getWalletFeature fresh StandardConnect r0) as [e0|w1] eqn:Hfeat;
      simpl; repeat split; try done.
    intros [= He]. apply getWalletFeature_error in Hfeat. subst e0.
    discriminate He.
Qed.

Lemma connect_unknown_wallet_witness :
  (UiWalletConnect_connect [basic] 0
     (new_UiWalletConnect (getOrCreateUiWalletForStandardWallet acme empty_registry).1)
     (getOrCreateUiWalletForStandardWallet acme empty_registry).2).1.1
  = Throws (not_found_error "Acme").
Proof.
  destruct (connect_unknown_wallet [basic] 0
    (new_UiWalletConnect (getOrCreateUiWalletForStandardWallet acme empty_registry).1)
    (getOrCreateUiWalletForStandardWallet acme empty_registry).2)
    as [(this' & H & _) _].
  - reflexivity.
  - apply Forall_cons. split; [|apply Forall_nil_2]. vm_compute. discriminate.
  - rewrite H. reflexivity.
Defined.

(** ** Concurrent callers once the promise settles *)

Lemma resume_adopters_member o l s c w :
  NoDup l.*1 → (c, w) ∈ l →
  connection (resume_adopters o l s) c = resume_adopter w o (connection s c).
Proof.
  revert s. induction l as [|[c' w'] l IH]; intros s Hnd Hin; [by inversion Hin|].
  simpl in Hnd. apply NoDup_cons in Hnd as [Hc' Hnd].
  unfold resume_adopters in *. simpl.
  apply elem_of_cons in Hin as [[= -> ->]|Hin].
  - fold (resume_adopters o l
      (complete c' (Fulfilled ()) (update_connection c' (resume_adopter w' o) s))).
    rewrite resume_adopters_other by done. by read_connection.
  - rewrite IH by done. rewrite connection_complete.
    rewrite connection_update_ne; [done|].
    intros ->. apply Hc'. apply list_elem_of_fmap. by exists (c, w).
Qed.

(** The callers of [single_flight], after the one promise they share has
    settled: all of them have stopped connecting; if it fulfilled, each holds
    the wallet and the first account; if it rejected, each has the cause in
    [error] and the wallet it held before. *)
Lemma concurrent_connect_settles c cs w o s :
  has_feature StandardConnect w = true →
  connectionPromises s !! wallet_id w = None →
  NoDup (c :: cs) →
  (∀ c', c' ∈ c :: cs → connecting (connection s c') = false) →
  let s' := settle_connect (next_promise s) o (connect_each (c :: cs) w s) in
  ∀ c', c' ∈ c :: cs →
    connecting (connection s' c') = false
    ∧ match o with
      | Fulfilled result =>
          shows_wallet (wallet (connection s' c')) w
          ∧ shows_account (account (connection s' c')) (first_account result)
          ∧ connected (connection s' c') = true
          ∧ error (connection s' c') = None
      | RejectedWith e =>
          error (connection s' c') = Some e
          ∧ wallet (connection s' c') = wallet (connection s c')
          ∧ account (connection s' c') = account (connection s c')
          ∧ connected (connection s' c') = connected (connection s c')
      end.
Proof.
  intros Hf Htab Hnd Hidle. simpl.
  set (s1 := WalletConnection_connect c w s).
  assert (s1 = start_connect c w
            (update_connection c (λ x, set_error None (set_connecting true x)) s))
    as Hs1.
  { unfold s1, WalletConnection_connect.
    rewrite (Hidle c) by apply list_elem_of_here. simpl. by rewrite Htab, Hf. }
  apply NoDup_cons in Hnd as [Hc Hnd].
  destruct (connect_each_adopts cs w s1 (next_promise s)
              {| op_wallet := w; op_owner := c; op_adopters := [] |})
    as (_ & _ & H3 & _ & H5 & H6).
  { rewrite Hs1. simpl. by rewrite lookup_insert_eq. }
  { rewrite Hs1. simpl. by rewrite lookup_insert_eq. }
  { done. }
  { intros c' Hc'. rewrite Hs1, connection_start_connect.
    rewrite connection_update_ne by (intros ->; done).
    apply Hidle. by apply list_elem_of_further. }
  fold (connect_each cs w s1). set (s2 := connect_each cs w s1) in *.
  assert (NoDup ((λ c', (c', w)) <$> cs).*1) as Hnd'.
  { rewrite <- list_fmap_compose. by rewrite list_fmap_id. }
  assert (c ∉ ((λ c', (c', w)) <$> cs).*1) as Hc'.
  { rewrite <- list_fmap_compose. by rewrite list_fmap_id. }
  intros c' Hin. unfold settle_connect. rewrite H3, lookup_insert_eq. simpl.
  destruct (decide (c' ∈ cs)) as [Hcs|Hout].
  - assert (c' ≠ c) as Hne by (intros ->; done).
    rewrite (resume_adopters_member _ _ _ c' w);
      [|done|apply list_elem_of_fmap; by exists c'].
    rewrite connection_complete, connection_update_ne by done.
    rewrite connection_forget_connect.
    assert (connection s1 c' = connection s c') as Hsame.
    { rewrite Hs1, connection_start_connect. by apply connection_update_ne. }
    destruct o as [result|e]; simpl.
    + rewrite connection_update_ne by done. rewrite H5 by done. simpl.
      split; [done|]. split; [apply shows_wallet_assigned|].
      split; [apply shows_account_assigned|done].
    + rewrite H5 by done. simpl. by rewrite Hsame.
  - apply elem_of_cons in Hin as [->|?]; [|done].
    rewrite resume_adopters_other by done.
    assert (connection s2 c
            = set_error None (set_connecting true (connection s c))) as Hown.
    { rewrite H6 by done. rewrite Hs1. by read_connection. }
    destruct o as [result|e]; read_connection; rewrite ?Hown; [|done].
    split; [done|]. split; [apply shows_wallet_assigned|].
    split; [apply shows_account_assigned|done].
Qed.

(** ** The scenarios of the test suite, replayed *)

(** "should connect to wallet" *)
Example test_connect :
  connection (run [Connect 0 acme; SettleConnect 0 (Fulfilled acme_output)]
                empty_world) 0
  = {| wallet := Some acme; account := Some acme_account; connecting := false;
       connected := true; error := None |}.
Proof. vm_compute. reflexivity. Qed.

(** "should prevent duplicate connections": the second call returns at the
    [connecting] guard. *)
Example test_duplicate_connections :
  let s := run [Connect 0 acme; Connect 0 acme;
                SettleConnect 0 (Fulfilled acme_output)] empty_world in
  connect_invocations s = [wallet_id acme]
  ∧ completed s = [(0, Fulfilled ()); (0, Fulfilled ())].
Proof. vm_compute. done. Qed.

(** "should handle connection errors" *)
Example test_connection_error :
  connection (run [Connect 0 acme; SettleConnect 0 (RejectedWith boom)]
                empty_world) 0
  = {| wallet := None; account := None; connecting := false;
       connected := false; error := Some boom |}.
Proof. vm_compute. reflexivity. Qed.

(** "should disconnect from wallet" *)
Example test_disconnect :
  let s := run [Connect 0 acme; SettleConnect 0 (Fulfilled acme_output);
                Disconnect 0; SettleDisconnect 1 (Fulfilled ())] empty_world in
  connection s 0 = new_WalletConnection
  ∧ disconnect_invocations s = [wallet_id acme].
Proof. vm_compute. done. Qed.

(** "should handle wallet without disconnect feature" *)
Example test_no_disconnect_feature :
  let s := run [Connect 0 connect_only; SettleConnect 0 (Fulfilled acme_output);
                Disconnect 0] empty_world in
  connection s 0 = new_WalletConnection ∧ disconnect_invocations s = [].
Proof. vm_compute. done. Qed.

(** "should cleanup event listeners on destroy" *)
Example test_destroy :
  destroy (store (new_StoreWorld [acme; basic]))
  = {| wallets := {| array_id := 1; items := [acme; basic] |};
       disposers := []; eventDisposers := [] |}.
Proof. vm_compute. reflexivity. Qed.

(** "should track connection state" and "should deduplicate concurrent
    connections" of [UiWalletConnect]. *)
Example test_ui_connect :
  let '(u, r) := getOrCreateUiWalletForStandardWallet acme empty_registry in
  let '(ret1, this1, r1) := UiWalletConnect_connect [acme] 5 (new_UiWalletConnect u) r in
  let '(ret2, this2, r2) := UiWalletConnect_connect [acme] 6 this1 r1 in
  let '(out, this3, r3) := UiWalletConnect_settle acme (Fulfilled acme_output) this2 r2 in
  ret1 = Awaits 5 acme ∧ uc_connecting this1 = true
  ∧ ret2 = Existing 5
  ∧ out = Fulfilled [{| ui_account_id := 1; ui_address := "0xAB" |}]
  ∧ uc_connecting this3 = false ∧ uc_connectionPromise this3 = None.
Proof. vm_compute. done. Qed.

(** * Further properties of the code *)

(** ** Who is connecting, and on what *)

Lemma waiters_add_adopter c w op : waiters (add_adopter c w op) = waiters op ++ [c].
Proof. unfold waiters, add_adopter. simpl. by rewrite fmap_app. Qed.

Lemma settle_connect_tables p o op s :
  connect_pending s !! p = Some op →
  connectionPromises (settle_connect p o s)
  = delete (wallet_id (op_wallet op)) (connectionPromises s)
  ∧ connect_pending (settle_connect p o s) = delete p (connect_pending s)
  ∧ disconnect_pending (settle_connect p o s) = disconnect_pending s
  ∧ next_promise (settle_connect p o s) = next_promise s
  ∧ connect_invocations (settle_connect p o s) = connect_invocations s
  ∧ disconnect_invocations (settle_connect p o s) = disconnect_invocations s.
Proof.
  intros Hp. unfold settle_connect. rewrite Hp.
  match goal with |- context [resume_adopters ?o ?l ?t] =>
    destruct (resume_adopters_tables o l t) as (-> & -> & -> & -> & -> & ->) end.
  by destruct o.
Qed.

Lemma resume_adopters_stops o l s c :
  c ∈ l.*1 → connecting (connection (resume_adopters o l s) c) = false.
Proof.
  revert s. induction l as [|[c' w] l IH]; intros s Hc; [by inversion Hc|].
  unfold resume_adopters in *. simpl in *.
  destruct (decide (c ∈ l.*1)) as [Hin|Hout]; [by apply IH|].
  apply elem_of_cons in Hc as [->|?]; [|done].
  fold (resume_adopters o l
    (complete c' (Fulfilled ()) (update_connection c' (resume_adopter w o) s))).
  rewrite resume_adopters_other by done. by read_connection.
Qed.

(** The settling of a promise touches only the controllers that await it, *)
Lemma settle_connect_frame p o op s c :
  connect_pending s !! p = Some op → c ∉ waiters op →
  connection (settle_connect p o s) c = connection s c.
Proof.
  intros Hp Hc. unfold waiters in Hc. apply not_elem_of_cons in Hc as [Hne Hc].
  unfold settle_connect. rewrite Hp. rewrite resume_adopters_other by done.
  rewrite connection_complete, connection_update_ne by done.
  rewrite connection_forget_connect.
  destruct o; [|done]. by rewrite connection_update_ne.
Qed.

(** and leaves none of them connecting. *)
Lemma settle_connect_stops p o op s c :
  connect_pending s !! p = Some op → c ∈ waiters op →
  connecting (connection (settle_connect p o s) c) = false.
Proof.
  intros Hp Hc. unfold settle_connect. rewrite Hp.
  destruct (decide (c ∈ (op_adopters op).*1)) as [Hin|Hout].
  - by apply resume_adopters_stops.
  - unfold waiters in Hc. apply elem_of_cons in Hc as [->|?]; [|done].
    rewrite resume_adopters_other by done. by read_connection.
Qed.

Lemma connecting_update c f s c' :
  (∀ x, connecting (f x) = connecting x) →
  connecting (connection (update_connection c f s) c') = connecting (connection s c').
Proof. intros Hf. rewrite connection_update. by case_decide. Qed.

Lemma coherent_ext s s' :
  connectionPromises s' = connectionPromises s →
  connect_pending s' = connect_pending s →
  next_promise s ≤ next_promise s' →
  (∀ c, connecting (connection s' c) = connecting (connection s c)) →
  coherent s → coherent s'.
Proof.
  intros Ht Hp Hn Hc [H1 H2 H3 H4 H5].
  split; unfold waiting; rewrite ?Hp; auto.
  - by apply (well_formed_ext s).
  - intros c. rewrite Hc. apply H2.
Qed.

Lemma coherent_empty : coherent empty_world.
Proof.
  split; unfold waiting; simpl.
  - apply well_formed_empty.
  - intros c. unfold connection. simpl. rewrite lookup_empty. simpl.
    split; [done|]. intros (p & op & Hp & _). by rewrite lookup_empty in Hp.
  - intros p op Hp. by rewrite lookup_empty in Hp.
  - intros p q op oq c Hp. by rewrite lookup_empty in Hp.
  - intros p op c w Hp. by rewrite lookup_empty in Hp.
Qed.

(** A controller that was not connecting joins the waiters of promise [p]. *)
Lemma coherent_join s s' p op' c old :
  coherent s →
  well_formed s' →
  connect_pending s' = <[p := op']> (connect_pending s) →
  (∀ x, x ∈ old ↔ ∃ op, connect_pending s !! p = Some op ∧ x ∈ waiters op) →
  NoDup old →
  waiters op' = old ++ [c] →
  (∀ c1 w1, (c1, w1) ∈ op_adopters op' → wallet_id w1 = wallet_id (op_wallet op')) →
  connecting (connection s c) = false →
  connecting (connection s' c) = true →
  (∀ c', c' ≠ c → connecting (connection s' c') = connecting (connection s c')) →
  coherent s'.
Proof.
  intros [H1 H2 H3 H4 H5] Hwf Hpend Hold Hnd Hnew Hsame Hc Hc' Hother.
  assert (¬ waiting s c) as Hnot.
  { intros Hw. apply H2 in Hw. congruence. }
  assert (c ∉ old) as Hcold.
  { intros Hin. apply Hold in Hin as (op & Hp & Hx). apply Hnot. by exists p, op. }
  assert (∀ x, waiting s' x ↔ waiting s x ∨ x = c) as Hwait.
  { intros x. unfold waiting. rewrite Hpend. split.
    - intros (q & oq & Hq & Hx). apply lookup_insert_Some in Hq as [[<- <-]|[Hne Hq]].
      + rewrite Hnew in Hx. apply elem_of_app in Hx as [Hx|Hx].
        * left. apply Hold in Hx as (op & Hp & Hx). by exists p, op.
        * right. by apply list_elem_of_singleton in Hx.
      + left. by exists q, oq.
    - intros [(q & oq & Hq & Hx)| ->].
      + destruct (decide (p = q)) as [<-|Hne].
        * exists p, op'. rewrite lookup_insert_eq. split; [done|].
          rewrite Hnew. apply elem_of_app. left. apply Hold. by exists oq.
        * exists q, oq. by rewrite lookup_insert_ne.
      + exists p, op'. rewrite lookup_insert_eq. split; [done|].
        rewrite Hnew. apply elem_of_app. right. apply list_elem_of_here. }
  split.
  - done.
  - intros x. rewrite Hwait. destruct (decide (x = c)) as [->|Hne].
    + rewrite Hc'. split; auto.
    + rewrite Hother by done. rewrite H2. tauto.
  - intros q oq. rewrite Hpend. intros Hq.
    apply lookup_insert_Some in Hq as [[<- <-]|[Hne Hq]]; [|by eapply H3].
    rewrite Hnew. apply NoDup_app. split; [done|]. split.
    + intros x Hx Hx'. apply list_elem_of_singleton in Hx'. by subst.
    + apply NoDup_singleton.
  - intros q1 q2 o1 o2 x. rewrite Hpend. intros Hq1 Hq2 Hx1 Hx2.
    apply lookup_insert_Some in Hq1 as [[<- <-]|[Hne1 Hq1]];
      apply lookup_insert_Some in Hq2 as [[<- <-]|[Hne2 Hq2]]; try done.
    + rewrite Hnew in Hx1. apply elem_of_app in Hx1 as [Hx1|Hx1].
      * apply Hold in Hx1 as (op & Hp & Hx1). by eapply H4.
      * apply list_elem_of_singleton in Hx1. subst x.
        exfalso. apply Hnot. by exists q2, o2.
    + rewrite Hnew in Hx2. apply elem_of_app in Hx2 as [Hx2|Hx2].
      * apply Hold in Hx2 as (op & Hp & Hx2). by eapply H4.
      * apply list_elem_of_singleton in Hx2. subst x.
        exfalso. apply Hnot. by exists q1, o1.
    + by eapply H4.
  - intros q oq c1 w1. rewrite Hpend. intros Hq Hin.
    apply lookup_insert_Some in Hq as [[<- <-]|[Hne Hq]]; [by eapply Hsame|].
    by eapply H5.
Qed.

Lemma step_coherent a s : coherent s → coherent (step a s).
Proof.
  intros Hcoh. pose proof Hcoh as [H1 H2 H3 H4 H5].
  pose proof (step_well_formed a s H1) as Hwf'.
  destruct a as [c w|c|p o|d o]; simpl in *.
  - unfold WalletConnection_connect in *.
    destruct (connecting (connection s c)) eqn:Hc.
    { by apply (coherent_ext s). }
    simpl in *. destruct (connectionPromises s !! wallet_id w) as [p|] eqn:Htab.
    + destruct (wf_table s H1 _ _ Htab) as (op & Hp & Hid).
      apply (coherent_join s _ p (add_adopter c w op) c (waiters op)); try done.
      * simpl. by apply alter_pending.
      * intros x. split; [by exists op|]. intros (op0 & Hp0 & Hx). congruence.
      * by eapply H3.
      * apply waiters_add_adopter.
      * simpl. intros c1 w1 Hin. apply elem_of_app in Hin as [Hin|Hin].
        -- by eapply H5.
        -- apply list_elem_of_singleton in Hin. congruence.
      * by read_connection.
      * intros c' Hne. rewrite connection_await_existing.
        by rewrite connection_update_ne.
    + destruct (has_feature StandardConnect w).
      * apply (coherent_join s _ (next_promise s)
                 {| op_wallet := w; op_owner := c; op_adopters := [] |} c []);
          try done.
        -- intros x. split; [by inversion 1|]. intros (op0 & Hp0 & _).
           rewrite (wf_fresh s H1) in Hp0; done.
        -- apply NoDup_nil_2.
        -- simpl. intros c1 w1 Hin. by inversion Hin.
        -- by read_connection.
        -- intros c' Hne. rewrite connection_start_connect.
           by rewrite connection_update_ne.
      * apply (coherent_ext s); try done. intros c'.
        rewrite connection_complete, !connection_update.
        case_decide; [subst; by rewrite Hc|done].
  - unfold WalletConnection_disconnect in *.
    destruct (wallet (connection s c)) as [w|]; [|by apply (coherent_ext s)].
    destruct (has_feature StandardDisconnect w).
    + apply (coherent_ext s); try done. simpl. lia.
    + apply (coherent_ext s); try done. intros c'.
      rewrite connection_complete. by apply connecting_update.
  - destruct (connect_pending s !! p) as [op|] eqn:Hp;
      [|unfold settle_connect; by rewrite Hp].
    destruct (settle_connect_tables p o op s Hp) as (Ht & Hq & _ & Hn & _).
    assert (∀ x, waiting (settle_connect p o s) x ↔ waiting s x ∧ x ∉ waiters op)
      as Hwait.
    { intros x. unfold waiting. rewrite Hq. split.
      - intros (q & oq & Hoq & Hx).
        apply lookup_delete_Some in Hoq as [Hne Hoq]. split; [by exists q, oq|].
        intros Hx'. apply Hne. by eapply H4.
      - intros [(q & oq & Hoq & Hx) Hout]. exists q, oq. split; [|done].
        rewrite lookup_delete_ne; [done|]. intros <-. congruence. }
    split.
    + done.
    + intros x. rewrite Hwait. destruct (decide (x ∈ waiters op)) as [Hin|Hout].
      * rewrite (settle_connect_stops p o op) by done. split; [done|tauto].
      * rewrite (settle_connect_frame p o op) by done. rewrite H2. tauto.
    + intros q oq. rewrite Hq. intros Hoq.
      apply lookup_delete_Some in Hoq as [_ Hoq]. by eapply H3.
    + intros q1 q2 o1 o2 x. rewrite Hq. intros Hq1 Hq2.
      apply lookup_delete_Some in Hq1 as [_ Hq1].
      apply lookup_delete_Some in Hq2 as [_ Hq2]. by eapply H4.
    + intros q oq c1 w1. rewrite Hq. intros Hoq.
      apply lookup_delete_Some in Hoq as [_ Hoq]. by eapply H5.
  - unfold settle_disconnect in *.
    destruct (disconnect_pending s !! d) as [c|]; [|done].
    apply (coherent_ext s); try done. intros c'.
    rewrite connection_complete. rewrite connecting_update; [done|].
    intros x. by destruct o.
Qed.

Lemma run_coherent l s : coherent s → coherent (run l s).
Proof.
  revert s. induction l as [|a l IH]; intros s Hs; [done|].
  simpl. apply IH. by apply step_coherent.
Qed.

(** A call that reaches the capability. *)
Lemma connect_starts c w s :
  connecting (connection s c) = false →
  connectionPromises s !! wallet_id w = None →
  has_feature StandardConnect w = true →
  WalletConnection_connect c w s
  = start_connect c w
      (update_connection c (λ x, set_error None (set_connecting true x)) s).
Proof.
  intros Hc Htab Hf. unfold WalletConnection_connect.
  rewrite Hc. simpl. by rewrite Htab, Hf.
Qed.




(** X1: in every world reached from the initial one, a controller has
    [connecting === true] exactly when its [connect] awaits a pending promise,
    as the caller that created it or as one that found it in the table; and
    it awaits at most one promise. *)
Theorem connecting_iff_waiting l c :
  let s := run l empty_world in
  (connecting (connection s c) = true ↔
   ∃ p op, connect_pending s !! p = Some op
           ∧ (c = op_owner op ∨ c ∈ (op_adopters op).*1))
  ∧ (∀ p q op oq,
       connect_pending s !! p = Some op → connect_pending s !! q = Some oq →
       c ∈ waiters op → c ∈ waiters oq → p = q).
Proof.
  simpl. pose proof (run_coherent l _ coherent_empty) as [H1 H2 H3 H4 H5].
  split.
  - rewrite H2. unfold waiting, waiters.
    split; intros (p & op & Hp & Hc); exists p, op; split; try done.
    + by apply elem_of_cons in Hc.
    + by apply elem_of_cons.
  - intros p q op oq. apply H4.
Qed.







(** X5: connecting and then disconnecting leaves nothing behind.  After a
    [connect] that fulfils and a [disconnect] (whose promise fulfils, or
    which ends at once when the wallet has no [standard:disconnect]
    feature), the controller equals one fresh from its constructor, the
    table is as it was, the connect capability was invoked once and the
    disconnect capability once if present, never otherwise. *)
Theorem connect_disconnect_round_trip c w result s :
  connecting (connection s c) = false →
  connectionPromises s !! wallet_id w = None →
  has_feature StandardConnect w = true →
  let p := next_promise s in
  let s1 := run [Connect c w; SettleConnect p (Fulfilled result)] s in
  let s2 :=
    if has_feature StandardDisconnect w
    then run [Disconnect c; SettleDisconnect (S p) (Fulfilled ())] s1
    else run [Disconnect c] s1 in
  connection s2 c = new_WalletConnection
  ∧ connectionPromises s2 = connectionPromises s
  ∧ connect_invocations s2 = connect_invocations s ++ [wallet_id w]
  ∧ disconnect_invocations s2
    = disconnect_invocations s
      ++ (if has_feature StandardDisconnect w then [wallet_id w] else []).
Proof.
  intros Hc Htab Hf. simpl.
  unfold WalletConnection_connect. rewrite Hc. simpl. rewrite Htab, Hf.
  unfold settle_connect. simpl. rewrite lookup_insert_eq. simpl.
  unfold WalletConnection_disconnect. read_connection.
  destruct (has_feature StandardDisconnect w); simpl.
  - unfold settle_disconnect. simpl. rewrite lookup_insert_eq.
    read_connection. by rewrite delete_insert_id.
  - read_connection. rewrite delete_insert_id by done. by rewrite app_nil_r.
Qed.

Lemma connect_disconnect_round_trip_witness :
  connection
    (run [Disconnect 0; SettleDisconnect 1 (Fulfilled ())]
       (run [Connect 0 acme; SettleConnect 0 (Fulfilled acme_output)] empty_world)) 0
  = new_WalletConnection.
Proof.
  destruct (connect_disconnect_round_trip 0 acme acme_output empty_world)
    as (H & _); [vm_compute; reflexivity ..|].
  vm_compute in H. vm_compute. exact H.
Defined.

(** X6: a settled promise is not reused.  Once the promise of a [connect]
    has settled, fulfilled or rejected, the next [connect] for the same
    wallet on the same controller invokes the capability again, registers a
    new promise, and clears [error]. *)
Theorem reconnect_invokes_again c w o s :
  connecting (connection s c) = false →
  connectionPromises s !! wallet_id w = None →
  has_feature StandardConnect w = true →
  let p := next_promise s in
  let s' := run [Connect c w; SettleConnect p o; Connect c w] s in
  connect_invocations s' = connect_invocations s ++ [wallet_id w; wallet_id w]
  ∧ connectionPromises s' !! wallet_id w = Some (S p)
  ∧ connect_pending s' !! S p
    = Some {| op_wallet := w; op_owner := c; op_adopters := [] |}
  ∧ error (connection s' c) = None
  ∧ connecting (connection s' c) = true.
Proof.
  intros Hc Htab Hf. simpl.
  rewrite (connect_starts c w s) by done.
  set (s1 := start_connect c w
               (update_connection c (λ x, set_error None (set_connecting true x)) s)).
  assert (connect_pending s1 !! next_promise s
          = Some {| op_wallet := w; op_owner := c; op_adopters := [] |}) as Hp.
  { simpl. by rewrite lookup_insert_eq. }
  destruct (settle_connect_tables _ o _ s1 Hp) as (Ht & Hq & _ & Hn & Hi & _).
  rewrite (connect_starts c w (settle_connect (next_promise s) o s1)).
  - simpl. rewrite Hn, Hi. simpl. rewrite !lookup_insert_eq.
    read_connection. by rewrite <- app_assoc.
  - eapply settle_connect_stops; [exact Hp|apply list_elem_of_here].
  - rewrite Ht. simpl. apply lookup_delete_eq.
  - done.
Qed.

Lemma reconnect_invokes_again_witness :
  connect_invocations
    (run [Connect 0 acme; SettleConnect 0 (RejectedWith boom); Connect 0 acme]
       empty_world)
  = [wallet_id acme; wallet_id acme].
Proof.
  destruct (reconnect_invokes_again 0 acme (RejectedWith boom) empty_world)
    as (H & _); [vm_compute; reflexivity ..|exact H].
Defined.

(** X7: [WalletConnection.disconnect] has no guard against a second call.
    Two calls in a row on a connected controller whose wallet has the
    [standard:disconnect] feature invoke the capability twice and wait on two
    promises; neither call changes the controller, the table or the pending
    connect promises. *)
Theorem disconnect_twice c w s :
  wallet (connection s c) = Some w →
  has_feature StandardDisconnect w = true →
  let p := next_promise s in
  let s' := run [Disconnect c; Disconnect c] s in
  disconnect_invocations s' = disconnect_invocations s ++ [wallet_id w; wallet_id w]
  ∧ disconnect_pending s' !! p = Some c
  ∧ disconnect_pending s' !! S p = Some c
  ∧ connection s' c = connection s c
  ∧ connectionPromises s' = connectionPromises s
  ∧ connect_pending s' = connect_pending s
  ∧ connect_invocations s' = connect_invocations s.
Proof.
  intros Hw Hf. simpl.
  assert (WalletConnection_disconnect c s = start_disconnect c w s) as ->.
  { unfold WalletConnection_disconnect. by rewrite Hw, Hf. }
  assert (WalletConnection_disconnect c (start_disconnect c w s)
          = start_disconnect c w (start_disconnect c w s)) as ->.
  { unfold WalletConnection_disconnect.
    by rewrite connection_start_disconnect, Hw, Hf. }
  simpl. rewrite <- app_assoc. repeat split.
  - rewrite lookup_insert_ne by lia. apply lookup_insert_eq.
  - apply lookup_insert_eq.
Qed.

Lemma disconnect_twice_witness :
  let s := run [Connect 0 acme; SettleConnect 0 (Fulfilled acme_output)] empty_world in
  disconnect_invocations (run [Disconnect 0; Disconnect 0] s)
  = disconnect_invocations s ++ [wallet_id acme; wallet_id acme].
Proof.
  intros s. destruct (disconnect_twice 0 acme s) as (H & _);
    [vm_compute; reflexivity ..|exact H].
Defined.

(** ** [WalletsStore]: teardown and listeners *)

Lemma store_step_no_listeners e s :
  disposers (store s) = [] → eventDisposers (store s) = [] →
  store (store_step e s) = store s.
Proof.
  intros Hd He. destruct e as [ev now|w]; simpl.
  - by rewrite Hd.
  - by rewrite He.
Qed.

(** X8: after [destroy()] the store is inert: whatever the registry and the
    wallets emit afterwards, its [wallets] array (contents and identity) stays
    the one it had, and it has no listeners; [destroy()] twice is [destroy()]
    once. *)
Theorem destroyed_store_ignores_events l s :
  store (store_run l (destroy_store s)) = destroy (store s)
  ∧ wallets (store (store_run l (destroy_store s))) = wallets (store s)
  ∧ destroy (destroy (store s)) = destroy (store s).
Proof.
  assert (store (store_run l (destroy_store s)) = destroy (store s)) as H.
  { assert (∀ t, disposers (store t) = [] → eventDisposers (store t) = [] →
                 store (store_run l t) = store t) as Hgen.
    { induction l as [|e l IH]; intros t Hd He; [done|]. simpl.
      pose proof (store_step_no_listeners e t Hd He) as Hst.
      rewrite IH; [done|by rewrite Hst..]. }
    by apply Hgen. }
  rewrite H. by repeat split.
Qed.

Lemma no_listener_for w (l : list Wallet) :
  (∀ v, v ∈ l → has_feature StandardEvents v = true → wallet_id v ≠ wallet_id w) →
  filter (λ v, wallet_id v = wallet_id w)
    (filter (λ v, has_feature StandardEvents v = true) l) = [].
Proof.
  induction l as [|v vs IH]; intros Hw; [done|].
  assert (∀ v', v' ∈ vs → has_feature StandardEvents v' = true →
                wallet_id v' ≠ wallet_id w) as Hvs.
  { intros v' Hv'. apply Hw. by apply list_elem_of_further. }
  rewrite filter_cons. case_decide as Hv; [|by apply IH].
  rewrite filter_cons. rewrite decide_False; [by apply IH|].
  apply Hw; [apply list_elem_of_here|done].
Qed.

(** X9: in a store that was constructed and has followed any events since,
    the [change] listeners are those of the wallets of the registry's
    snapshot that have the [standard:events] feature, one each; so a
    [change] notification from a wallet that is not among them (it left the
    registry, or lacks the feature) changes nothing. *)
Theorem foreign_change_ignored initial l w :
  let s := store_run l (new_StoreWorld initial) in
  (∀ v, v ∈ items (registry s) → has_feature StandardEvents v = true →
        wallet_id v ≠ wallet_id w) →
  eventDisposers (store s)
  = filter (λ v, has_feature StandardEvents v = true) (items (registry s))
  ∧ store_step (WalletEmitsChange w) s = s.
Proof.
  intros s Hw.
  pose proof (store_run_live l _ (live_new initial)) as [Hd Hi Hl Ha].
  fold s in Hd, Hi, Hl, Ha. rewrite Hi in Hl. split; [done|]. simpl.
  rewrite Hl.
  assert (filter (λ v, wallet_id v = wallet_id w)
            (filter (λ v, has_feature StandardEvents v = true) (items (registry s)))
          = []) as ->; [|done].
  by apply no_listener_for.
Qed.

Lemma foreign_change_ignored_witness :
  let s := store_run [RegistryEmits unregister [basic]] (new_StoreWorld [basic; acme]) in
  store_step (WalletEmitsChange acme) s = s.
Proof.
  intros s.
  destruct (foreign_change_ignored [basic; acme] [RegistryEmits unregister [basic]] acme)
    as [_ H]; [|exact H].
  intros v Hv. vm_compute in Hv. apply list_elem_of_singleton in Hv. subst v.
  vm_compute. discriminate.
Defined.

(** ** The per-wallet helpers *)

(** X10: [UiWalletDisconnect.disconnect()] for a handle whose name is the
    name of no wallet in the registry's snapshot throws the "not found in
    global registry" error like [UiWalletConnect.connect], but neither
    resets [disconnecting] nor records the error: the controller is left
    with [disconnecting === true] and [error === null], and no promise is
    stored, so a later call looks the wallet up again. *)
Theorem ui_disconnect_unknown_wallet get p this r :
  ud_disconnectionPromise this = None →
  Forall (λ w, wallet_name w ≠ ui_name (ud_uiWallet this)) get →
  ∃ this',
    UiWalletDisconnect_disconnect get p this r
    = (Throws (not_found_error (ui_name (ud_uiWallet this))), this', r)
    ∧ ud_disconnecting this' = true
    ∧ ud_error this' = None
    ∧ ud_disconnectionPromise this' = None
    ∧ ud_uiWallet this' = ud_uiWallet this.
Proof.
  intros Hp Hget. unfold UiWalletDisconnect_disconnect.
  rewrite Hp, (find_by_name_None _ _ Hget). by eexists.
Qed.

Lemma ui_disconnect_unknown_wallet_witness :
  ∃ this',
    UiWalletDisconnect_disconnect [basic] 0
      {| ud_disconnecting := false; ud_error := Some boom;
         ud_disconnectionPromise := None;
         ud_uiWallet := {| ui_id := 0; ui_name := "Acme"; ui_features := [] |} |}
      empty_registry
    = (Throws (not_found_error "Acme"), this', empty_registry)
    ∧ ud_disconnecting this' = true
    ∧ ud_error this' = None
    ∧ ud_disconnectionPromise this' = None
    ∧ ud_uiWallet this' = {| ui_id := 0; ui_name := "Acme"; ui_features := [] |}.
Proof.
  apply (ui_disconnect_unknown_wallet [basic] 0
    {| ud_disconnecting := false; ud_error := Some boom;
       ud_disconnectionPromise := None;
       ud_uiWallet := {| ui_id := 0; ui_name := "Acme"; ui_features := [] |} |}
    empty_registry).
  - reflexivity.
  - apply Forall_cons. split; [|apply Forall_nil_2]. vm_compute. discriminate.
Defined.





Lemma map_cached_length {A B} (f : A → UiRegistry → B * UiRegistry) l r :
  length (map_cached f l r).1 = length l.
Proof.
  revert r. induction l as [|x l IH]; intros r; [done|]. simpl.
  destruct (f x r) as [y r1]. specialize (IH r1).
  destruct (map_cached f l r1) as [ys r2]. simpl in *. by rewrite IH.
Qed.





(** ** [UiWalletsStore] and the registry *)

Lemma state_proxies_bounds {A} k (l : list A) :
  Forall (λ u, k ≤ proxy_id u < k + length l) (state_proxies k l).
Proof.
  revert k. induction l as [|x l IH]; intros k; simpl; constructor.
  - simpl. lia.
  - eapply Forall_impl; [apply IH|]. simpl. intros u ?. lia.
Qed.

Lemma state_proxies_Forall2 {A B} (Q : B → A → Prop) (l : list B) (us : list A) :
  Forall2 Q l us →
  ∀ k, Forall2 (λ w u, Q w (proxy_target u)) l (state_proxies k us).
Proof. induction 1; intros k; simpl; constructor; auto. Qed.

Lemma state_proxies_cached k get r :
  Forall2 (λ w u, ui_cache (useWallets get r).2 !! wallet_id w
                  = Some (proxy_target u))
    get (state_proxies k (useWallets get r).1).
Proof.
  exact (state_proxies_Forall2
           (λ w h, ui_cache (useWallets get r).2 !! wallet_id w = Some h)
           _ _ (map_cached_cached get r) k).
Qed.

Lemma loadWallets_eq get k st r :
  loadWallets get k st r
  = ({| ui_wallets := state_proxies k (useWallets get r).1;
        ui_disposers := ui_disposers st |},
     (useWallets get r).2).
Proof.
  unfold loadWallets, useWallets.
  by destruct (map_cached getOrCreateUiWalletForStandardWallet get r).
Qed.

Lemma ui_store_step_listening e s :
  ui_disposers (ui_store s) = [register; unregister] →
  ui_store_step e s
  = {| ui_snapshot := e.2;
       ui_store :=
         {| ui_wallets :=
              state_proxies (ui_next_proxy s) (useWallets e.2 (ui_registry s)).1;
            ui_disposers := [register; unregister] |};
       ui_registry := (useWallets e.2 (ui_registry s)).2;
       ui_next_proxy := ui_next_proxy s + length e.2 |}.
Proof.
  intros Hd. unfold ui_store_step. rewrite Hd, registry_listeners. simpl.
  by rewrite loadWallets_eq, Hd.
Qed.

(** What holds of a store that was constructed and not destroyed. *)
Lemma ui_store_run_listening l s :
  ui_disposers (ui_store s) = [register; unregister] →
  Forall2 (λ w u, ui_cache (ui_registry s) !! wallet_id w = Some (proxy_target u))
    (ui_snapshot s) (ui_wallets (ui_store s)) →
  Forall (λ u, proxy_id u < ui_next_proxy s) (ui_wallets (ui_store s)) →
  ui_disposers (ui_store (ui_store_run l s)) = [register; unregister]
  ∧ Forall2 (λ w u, ui_cache (ui_registry (ui_store_run l s)) !! wallet_id w
                    = Some (proxy_target u))
      (ui_snapshot (ui_store_run l s)) (ui_wallets (ui_store (ui_store_run l s)))
  ∧ Forall (λ u, proxy_id u < ui_next_proxy (ui_store_run l s))
      (ui_wallets (ui_store (ui_store_run l s))).
Proof.
  revert s. induction l as [|e l IH]; intros s Hd Hc Hn; [done|].
  simpl. apply IH; rewrite (ui_store_step_listening e s Hd); simpl; [done| |].
  - apply state_proxies_cached.
  - eapply Forall_impl; [apply state_proxies_bounds|]. simpl. intros u.
    unfold useWallets. rewrite map_cached_length. lia.
Qed.

Lemma new_UiStoreWorld_listening initial r :
  ui_disposers (ui_store (new_UiStoreWorld initial r)) = [register; unregister]
  ∧ Forall2 (λ w u, ui_cache (ui_registry (new_UiStoreWorld initial r)) !! wallet_id w
                    = Some (proxy_target u))
      initial (ui_wallets (ui_store (new_UiStoreWorld initial r)))
  ∧ Forall (λ u, proxy_id u < length initial)
      (ui_wallets (ui_store (new_UiStoreWorld initial r))).
Proof.
  unfold new_UiStoreWorld, new_UiWalletsStore. rewrite loadWallets_eq. simpl.
  split; [done|]. split.
  - apply state_proxies_cached.
  - eapply Forall_impl; [apply state_proxies_bounds|]. simpl. intros u.
    unfold useWallets. rewrite map_cached_length. lia.
Qed.

(** X15: a [UiWalletsStore] that was constructed and has followed any
    registry events shows one element per wallet of the registry's snapshot,
    in the snapshot's order, each a proxy of the handle the cache holds for
    that wallet; a wallet (by identity) that is shown before an event and
    still listed after it is shown through a new proxy of the same handle. *)
Theorem ui_store_follows_registry initial r l :
  let s := ui_store_run l (new_UiStoreWorld initial r) in
  length (ui_wallets (ui_store s)) = length (ui_snapshot s)
  ∧ Forall2 (λ w u, ui_cache (ui_registry s) !! wallet_id w = Some (proxy_target u))
      (ui_snapshot s) (ui_wallets (ui_store s))
  ∧ ∀ e i j w w' u,
      ui_snapshot s !! i = Some w → ui_wallets (ui_store s) !! i = Some u →
      e.2 !! j = Some w' → wallet_id w' = wallet_id w →
      ui_snapshot (ui_store_step e s) = e.2
      ∧ ∃ u', ui_wallets (ui_store (ui_store_step e s)) !! j = Some u'
              ∧ proxy_target u' = proxy_target u
              ∧ proxy_id u' ≠ proxy_id u.
Proof.
  intros s.
  destruct (new_UiStoreWorld_listening initial r) as (Hd0 & Hc0 & Hn0).
  destruct (ui_store_run_listening l _ Hd0 Hc0 Hn0) as (Hd & Hc & Hn).
  fold s in Hd, Hc, Hn.
  split; [symmetry; by eapply Forall2_length|]. split; [done|].
  intros e i j w w' u Hw Hu Hw' Hid.
  rewrite (ui_store_step_listening e s Hd). simpl. split; [done|].
  pose proof (Forall2_lookup_lr _ _ _ _ _ _ Hc Hw Hu) as Hcache. simpl in Hcache.
  pose proof (map_cached_keeps e.2 (ui_registry s) _ _ Hcache) as Hkept.
  destruct (Forall2_lookup_l _ _ _ _ _
              (state_proxies_cached (ui_next_proxy s) e.2 (ui_registry s)) Hw')
    as (u' & Hu' & Hcache').
  exists u'. split; [done|]. simpl in Hcache'. unfold useWallets in Hcache'.
  rewrite Hid, Hkept in Hcache'. split; [congruence|].
  pose proof (proj1 (Forall_forall _ _) Hn u (list_elem_of_lookup_2 _ _ _ Hu)) as Hlt.
  pose proof (proj1 (Forall_forall _ _)
                (state_proxies_bounds (ui_next_proxy s) (useWallets e.2 (ui_registry s)).1)
                u' (list_elem_of_lookup_2 _ _ _ Hu')) as Hge.
  simpl in *. lia.
Qed.

(** "should convert standard wallets to UI wallets" *)
Example test_ui_wallets_store :
  (λ u, ui_name (proxy_target u))
    <$> ui_wallets (ui_store (new_UiStoreWorld [acme; basic] empty_registry))
  = ["Acme"; "Basic Wallet"].
Proof. vm_compute. reflexivity. Qed.
